(** * Infinite sheds: a shallow embedding of [pvlib/infinite_sheds.py]

    The module computes plane-of-array irradiance for long parallel rows of
    PV modules.  Numbers are modelled as real numbers; arrays as lists; the
    quotients written in the source go through a small logging monad that
    records every divisor, so that "no division by zero is performed" is a
    property of a run.  The numpy helpers the module calls ([np.arctan2],
    [np.linspace], [np.interp], [np.trapz], [%]) are modelled in [Numpy]. *)

From Stdlib Require Import String Reals Lra Lia ZArith List.
From Equations Require Import Equations.
Import ListNotations.
Local Open Scope R_scope.

(* ===================================================================== *)
(** ** Numbers and numpy helpers *)
(* ===================================================================== *)

Module Numpy.

(** A float as the source can observe it: [np.isfinite] separates the
    finite values from [inf], [-inf] and [nan]. *)
Inductive npfloat : Type :=
| Fin (r : R)
| PInf
| NInf
| NaN.

Definition isfinite (x : npfloat) : bool :=
  match x with
  | Fin _ => true
  | _ => false
  end.

(** [np.where(cond, x, 0.0)] on a scalar whose finite part is kept. *)
Definition where_finite (x : npfloat) (other : R) : R :=
  match x with
  | Fin r => r
  | _ => other
  end.

Definition Rltb (x y : R) : bool := if Rlt_dec x y then true else false.

(** [np.arctan2(y, x)]: the angle of the point [(x, y)], in (-pi, pi]. *)
Definition arctan2 (y x : R) : R :=
  if Rltb 0 x then atan (y / x)
  else if Rltb x 0 then
         (if Rltb y 0 then atan (y / x) - PI else atan (y / x) + PI)
  else if Rltb 0 y then PI / 2
  else if Rltb y 0 then - (PI / 2)
  else 0.

(** [x % m] on floats: the remainder has the sign of the divisor. *)
Definition mod_ (x m : R) : R := x - IZR (Int_part (x / m)) * m.

(** [np.linspace(start, stop, num)], end point included. *)
Definition linspace (start stop : R) (num : nat) : list R :=
  map (fun i => start + INR i * ((stop - start) / INR (num - 1))) (seq 0 num).

(** [np.interp(x, xp, fp)] at one abscissa: linear between the sample
    points, constant outside them. *)
Fixpoint interp1 (x : R) (xp fp : list R) : R :=
  match xp, fp with
  | x0 :: xp', y0 :: fp' =>
      if Rltb x0 x then
        match xp', fp' with
        | x1 :: _, y1 :: _ =>
            if Rltb x1 x then interp1 x xp' fp'
            else y0 + (x - x0) * ((y1 - y0) / (x1 - x0))
        | _, _ => y0
        end
      else y0
  | _, _ => 0
  end.

Definition interp (x xp fp : list R) : list R :=
  map (fun xi => interp1 xi xp fp) x.

(** [np.trapz(y, x)]. *)
Fixpoint trapz (y x : list R) : R :=
  match y, x with
  | y0 :: ((y1 :: _) as y'), x0 :: ((x1 :: _) as x') =>
      (x1 - x0) * (y0 + y1) / 2 + trapz y' x'
  | _, _ => 0
  end.

(** Elementwise sum of two arrays of the same length. *)
Fixpoint add (a b : list R) : list R :=
  match a, b with
  | x :: a', y :: b' => (x + y) :: add a' b'
  | _, _ => []
  end.

(** [np.sum(rows, axis=0)] against arrays of length [n]: the empty sum is
    the scalar [0.0], which broadcasts to zeros. *)
Definition sum_axis0 (n : nat) (rows : list (list R)) : list R :=
  fold_left add rows (repeat 0 n).


End Numpy.
Import Numpy.

(* ===================================================================== *)
(** ** Quotients with a log of their divisors *)
(* ===================================================================== *)

(** On numpy scalars a zero divisor does not raise: it warns and yields
    [inf] or [nan]; on built-in floats it raises [ZeroDivisionError].  The
    model gives every quotient a value and keeps next to it, in execution
    order, the divisor of every [/] of the source that was evaluated.  The
    value agrees with the formula of the source whenever the log has no
    zero in it; what the value is at a zero divisor says nothing about the
    program.  Division by a non-zero literal is written directly. *)
Module DivLog.

Definition D (A : Type) : Type := (A * list R)%type.

Definition ret {A} (a : A) : D A := (a, []).

Definition bind {A B} (m : D A) (f : A -> D B) : D B :=
  (fst (f (fst m)), snd m ++ snd (f (fst m))).

Definition div (a b : R) : D R := (a / b, [b]).

(** A quotient whose non-finite outcome the source inspects afterwards
    ([np.isfinite]): a zero divisor gives [inf], [-inf] or [nan] by the
    sign of the dividend. *)
Definition div_float (a b : R) : D npfloat :=
  ((if Req_dec_T b 0 then
      (if Rltb 0 a then PInf else if Rltb a 0 then NInf else NaN)
    else Fin (a / b)), [b]).

Definition value {A} (m : D A) : A := fst m.
Definition divisors {A} (m : D A) : list R := snd m.

(** No quotient of the run had a zero divisor. *)
Definition div_safe {A} (m : D A) : Prop :=
  Forall (fun d => d <> 0) (divisors m).

Fixpoint mapM {A B} (f : A -> D B) (l : list A) : D (list B) :=
  match l with
  | [] => ret []
  | a :: l' => bind (f a) (fun b => bind (mapM f l') (fun bs => ret (b :: bs)))
  end.

End DivLog.
Import DivLog.

Declare Scope div_scope.
Delimit Scope div_scope with D.
Notation "x <- m ;; k" := (bind m (fun x => k))
  (at level 61, m at next level, right associativity) : div_scope.
Notation "a // b" := (div a b) (at level 40, left associativity) : div_scope.
Local Open Scope div_scope.

(* ===================================================================== *)
(** ** The module's constants and leaf functions *)
(* ===================================================================== *)

Definition EPS : R := 1 / 1000.
Definition MAXROWS : R := 15.

(** [tilt < EPS or tilt > (np.pi-EPS)] *)
Definition near_flat (tilt : R) : bool :=
  Rltb tilt EPS || Rltb (PI - EPS) tilt.

Definition solar_projection (solar_zenith solar_azimuth system_azimuth : R)
  : D (R * R) :=
  let rotation := solar_azimuth - system_azimuth in
  let x1 := cos rotation * sin solar_zenith in
  let x2 := cos solar_zenith in
  tan_phi <- x1 // x2 ;;
  let phi := arctan2 x1 x2 in
  ret (phi, tan_phi).

Definition solar_projection_tangent
  (solar_zenith solar_azimuth system_azimuth : R) : R :=
  let rotation := solar_azimuth - system_azimuth in
  let tan_phi := cos rotation * tan solar_zenith in
  tan_phi.

Definition unshaded_ground_fraction (gcr tilt tan_phi : R) : R :=
  let f_gnd_beam :=
    1 - Rmin 1 (gcr * Rabs (cos tilt + sin tilt * tan_phi)) in
  f_gnd_beam.

Definition _gcr_prime (gcr height tilt pitch : R) : D R :=
  a <- height // sin tilt ;;
  b <- a // pitch ;;
  ret (gcr + b).

Definition ground_sky_angles (f_z gcr height tilt pitch : R) : D (R * R) :=
  (* if tilt is close to zero, then these angles don't exist! *)
  if near_flat tilt then ret (0, 0)
  else
    gcr_prime <- _gcr_prime gcr height tilt pitch ;;
    let tilt_prime := PI - tilt in
    let opposite_side := sin tilt_prime in
    a <- f_z // gcr_prime ;;
    let adjacent_side := a + cos tilt_prime in
    let psi_0 := arctan2 opposite_side adjacent_side in
    let f_z_prime := 1 - f_z in
    let opposite_side := sin tilt in
    b <- f_z_prime // gcr_prime ;;
    let adjacent_side := b + cos tilt in
    let psi_1 := arctan2 opposite_side adjacent_side in
    ret (psi_0, psi_1).

Definition ground_sky_angles_prev (f_z gcr height tilt pitch : R) : D (R * R) :=
  gcr_prime <- _gcr_prime gcr height tilt pitch ;;
  let tilt_prime := PI - tilt in
  let z := f_z * pitch in
  if near_flat tilt then
    let psi_1 := arctan2 height (- z) in
    a <- height // pitch ;;
    let psi_0 :=
      arctan2 (gcr * sin tilt_prime + a) ((1 + f_z) + gcr * cos tilt_prime) in
    ret (psi_0, psi_1)
  else
    (* angle to top of previous panel beyond the current row *)
    a <- (1 + f_z) // gcr_prime ;;
    let psi_0 := arctan2 (sin tilt_prime) (a + cos tilt_prime) in
    (* angle to bottom of previous panel *)
    b <- height // tan tilt ;;
    let psi_1 := arctan2 height (b - z) in
    ret (psi_0, psi_1).

Definition sky_angle (gcr tilt f_x : R) : D (R * R) :=
  let f_y := 1 - f_x in
  let x1 := f_y * sin tilt in
  a <- 1 // gcr ;;
  let x2 := a - f_y * cos tilt in
  tan_psi_top <- x1 // x2 ;;
  let psi_top := arctan2 x1 x2 in
  ret (psi_top, tan_psi_top).

Definition sky_angle_tangent (gcr tilt f_x : R) : D R :=
  let f_y := 1 - f_x in
  a <- 1 // gcr ;;
  f_y * sin tilt // (a - f_y * cos tilt).

Definition sky_angle_0_tangent (gcr tilt : R) : D R :=
  sky_angle_tangent gcr tilt 0.

Definition f_z0_limit (gcr height tilt pitch : R) : D R :=
  (* if tilt is zero, then tan_psi_top is also zero, and fz limit is inf *)
  if near_flat tilt then MAXROWS * height // pitch
  else
    tan_psi_t_x0 <- sky_angle_0_tangent gcr tilt ;;
    a <- height // pitch ;;
    b <- 1 // tan tilt ;;
    c <- 1 // tan_psi_t_x0 ;;
    ret (a * (b + c)).

Definition ground_sky_angles_next (f_z gcr height tilt pitch : R) : D (R * R) :=
  gcr_prime <- _gcr_prime gcr height tilt pitch ;;
  let tilt_prime := PI - tilt in
  (* angle to bottom of next panel *)
  let fzprime := 1 - f_z in
  let zprime := fzprime * pitch in
  (* the branch assigns psi_0 and psi_1 and does not return *)
  _assigned <-
    (if near_flat tilt then
       let psi_0 := arctan2 height (- zprime) in
       a <- height // pitch ;;
       let psi_1 :=
         arctan2 (gcr * sin tilt + a) ((1 + fzprime) + gcr * cos tilt) in
       ret (Some (psi_0, psi_1))
     else ret None) ;;
  (* the two assignments below run on every path and overwrite them *)
  a <- height // tan tilt_prime ;;
  let psi_0 := arctan2 height (a - zprime) in
  (* angle to top of next panel beyond the current row *)
  b <- (1 + fzprime) // gcr_prime ;;
  let psi_1 := arctan2 (sin tilt) (b + cos tilt) in
  ret (psi_0, psi_1).

Definition f_z1_limit (gcr height tilt pitch : R) : D R :=
  if near_flat tilt then MAXROWS * height // pitch
  else
    tan_psi_t_x1 <- sky_angle_0_tangent gcr (PI - tilt) ;;
    a <- height // pitch ;;
    b <- 1 // tan_psi_t_x1 ;;
    c <- 1 // tan tilt ;;
    ret (a * (b - c)).

Definition calc_fz_sky (psi_0 psi_1 : R) : R :=
  (cos psi_0 + cos psi_1) / 2.

(* ===================================================================== *)
(** ** Ground-to-sky view factor *)
(* ===================================================================== *)

(** The accumulation loops of [ground_sky_diffuse_view_factor]:
<<
    row = 0.0
    while (limit - row) > 0:
        rows.append(body(row))
        row += 1.0
>>
    The counter is a float, so the recursion is on the integer just above
    [limit - row]. *)
Equations? while_rows (limit row : R) (body : R -> list R)
  (rows : list (list R)) : list (list R)
  by wf (Z.to_nat (up (limit - row))) lt :=
  while_rows limit row body rows with Rlt_dec 0 (limit - row) => {
    | left _ => while_rows limit (row + 1) body (rows ++ [body row]);
    | right _ => rows }.
Proof.
  destruct (archimed (limit - row)) as [Hu _].
  assert (Hup : up (limit - (row + 1)) = (up (limit - row) - 1)%Z).
  { symmetry; apply tech_up; rewrite minus_IZR;
      destruct (archimed (limit - row)); lra. }
  rewrite Hup.
  assert (0 < up (limit - row))%Z by (apply lt_IZR; lra).
  lia.
Qed.

(** The local variables of [ground_sky_diffuse_view_factor] when it returns. *)
Module Locals.
Record t : Type := mk {
  fz0_limit : R;
  fz1_limit : R;
  fz : list R;
  psi_z : list (R * R);
  psi_z0 : list (R * R);
  fz_sky_next : list R;
  fz0_sky_next : list (list R);
  psi_z1 : list (R * R);
  fz_sky_prev : list R;
  fz1_sky_prev : list (list R);
  fz_sky : list R;
  fz_row : list R;
  returned : list R * list R
}.
End Locals.

Definition ground_sky_diffuse_view_factor_locals
  (gcr height tilt pitch : R) (npoints : nat) : D Locals.t :=
  fz0_limit <- f_z0_limit gcr height tilt pitch ;;
  fz1_limit <- f_z1_limit gcr height tilt pitch ;;
  (* include extra space to account for sky visible from adjacent rows
     divide ground between visible limits into 3x npoints *)
  let fz :=
    linspace (if Rltb 0 (1 - fz1_limit) then 0 else 1 - fz1_limit)
             (if Rltb fz0_limit 1 then 1 else fz0_limit)
             (3 * npoints) in
  psi_z <- mapM (fun z => ground_sky_angles z gcr height tilt pitch) fz ;;
  (* front edge *)
  psi_z0 <- mapM (fun z => ground_sky_angles_prev z gcr height tilt pitch) fz ;;
  let fz_sky_next := map (fun psi => calc_fz_sky (fst psi) (snd psi)) psi_z0 in
  let fz0_sky_next :=
    while_rows fz0_limit 0
      (fun prev_row => interp (map (fun z => z + prev_row) fz) fz fz_sky_next)
      [] in
  (* back edge *)
  psi_z1 <- mapM (fun z => ground_sky_angles_next z gcr height tilt pitch) fz ;;
  let fz_sky_prev := map (fun psi => calc_fz_sky (fst psi) (snd psi)) psi_z1 in
  let fz1_sky_prev :=
    while_rows fz1_limit 0
      (fun next_row => interp (map (fun z => z - next_row) fz) fz fz_sky_prev)
      [] in
  (* calculate the view factor of the sky from the ground at point z *)
  let fz_sky :=
    add (add (map (fun psi => calc_fz_sky (fst psi) (snd psi)) psi_z)
             (sum_axis0 (length fz) fz0_sky_next))
        (sum_axis0 (length fz) fz1_sky_prev) in
  (* we just need one row, fz in range [0, 1] *)
  let fz_row := linspace 0 1 npoints in
  ret (Locals.mk fz0_limit fz1_limit fz psi_z psi_z0 fz_sky_next fz0_sky_next
         psi_z1 fz_sky_prev fz1_sky_prev fz_sky fz_row
         (fz_row, interp fz_row fz fz_sky)).

Definition ground_sky_diffuse_view_factor
  (gcr height tilt pitch : R) (npoints : nat) : D (list R * list R) :=
  l <- ground_sky_diffuse_view_factor_locals gcr height tilt pitch npoints ;;
  ret (Locals.returned l).

Definition vf_ground_sky (gcr height tilt pitch : R) (npoints : nat)
  : D (R * list R) :=
  r <- ground_sky_diffuse_view_factor gcr height tilt pitch npoints ;;
  let z_star := fst r in
  let fz_sky := snd r in
  let fgnd_sky := trapz fz_sky z_star in
  ret (fgnd_sky, fz_sky).

Definition ground_angle (gcr tilt f_x : R) : D (R * R) :=
  let x1 := f_x * sin tilt in
  a <- 1 // gcr ;;
  let x2 := f_x * cos tilt + a in
  tan_psi_bottom <- x1 // x2 ;;
  let psi_bottom := arctan2 x1 x2 in
  ret (psi_bottom, tan_psi_bottom).

Definition calc_fgndpv_zsky (fx gcr height tilt pitch : R) (npoints : nat)
  : D (R * R) :=
  r <- vf_ground_sky gcr height tilt pitch npoints ;;
  let fgnd_sky := fst r in
  psi_x_bottom <-
    (if Req_dec_T fx 0 then ret 0
     else p <- ground_angle gcr tilt fx ;; ret (fst p)) ;;
  let psi_max := tilt - psi_x_bottom in
  let fgnd_pv := (1 - cos psi_max) / 2 in
  let fskyz := fgnd_sky * fgnd_pv in
  ret (fskyz, fgnd_pv).

(* ===================================================================== *)
(** ** Irradiance components *)
(* ===================================================================== *)

Definition diffuse_fraction (ghi dhi : R) : D npfloat :=
  div_float dhi ghi.

Definition poa_ground_sky (poa_ground f_gnd_beam : R) (df : npfloat)
  (vf_gnd_sky : R) : R :=
  let df := where_finite df 0 in
  poa_ground * (f_gnd_beam * (1 - df) + df * vf_gnd_sky).

Definition shade_line (gcr tilt tan_phi : R) : D R :=
  a <- 1 // gcr ;;
  b <- a // (cos tilt + sin tilt * tan_phi) ;;
  let f_x := 1 - b in
  ret (Rmax 0 (Rmin f_x 1)).

Definition f_sky_diffuse_pv (tilt tan_psi_top tan_psi_top_0 : R) : D (R * R) :=
  let psi_top := atan tan_psi_top in
  let psi_top_0 := atan tan_psi_top_0 in
  f_sky_pv_shade <-
    (1 + (cos (psi_top + tilt) + cos (psi_top_0 + tilt)) / 2)
    // (1 + cos tilt) ;;
  a <- (1 + cos (psi_top + tilt)) // (1 + cos tilt) ;;
  let f_sky_pv_noshade := (1 + a) / 2 in
  ret (f_sky_pv_shade, f_sky_pv_noshade).

Definition poa_sky_diffuse_pv
  (poa_sky_diffuse f_x f_sky_pv_shade f_sky_pv_noshade : R) : R :=
  poa_sky_diffuse * (f_x * f_sky_pv_shade + (1 - f_x) * f_sky_pv_noshade).

Definition ground_angle_tangent (gcr tilt f_x : R) : D R :=
  a <- 1 // gcr ;;
  f_x * sin tilt // (f_x * cos tilt + a).

Definition ground_angle_1_tangent (gcr tilt : R) : D R :=
  ground_angle_tangent gcr tilt 1.

Definition f_ground_pv (tilt tan_psi_bottom tan_psi_bottom_1 : R) : D (R * R) :=
  let psi_bottom := atan tan_psi_bottom in
  let psi_bottom_1 := atan tan_psi_bottom_1 in
  a <- (1 - cos (tilt - psi_bottom)) // (1 - cos tilt) ;;
  let f_gnd_pv_shade := (1 + a) / 2 in
  f_gnd_pv_noshade <-
    (1 - (cos (tilt - psi_bottom) + cos (tilt - psi_bottom_1)) / 2)
    // (1 - cos tilt) ;;
  ret (f_gnd_pv_shade, f_gnd_pv_noshade).

Definition poa_ground_pv
  (poa_gnd_sky f_x f_gnd_pv_shade f_gnd_pv_noshade : R) : R :=
  poa_gnd_sky * (f_x * f_gnd_pv_shade + (1 - f_x) * f_gnd_pv_noshade).

Definition poa_diffuse_pv (poa_gnd_pv poa_sky_pv : R) : R :=
  poa_gnd_pv + poa_sky_pv.

Definition poa_direct_pv (poa_direct iam f_x : R) : R :=
  poa_direct * iam * (1 - f_x).

Definition poa_global_pv (poa_dir_pv poa_dif_pv : R) : R :=
  poa_dir_pv + poa_dif_pv.

Definition poa_global_bifacial
  (poa_global_front poa_global_back bifaciality shade_factor
     transmission_factor : R) : R :=
  let effects := (1 + shade_factor) * (1 + transmission_factor) in
  poa_global_front + poa_global_back * bifaciality * effects.

Definition _backside (tilt system_azimuth : R) : R * R :=
  let backside_tilt := PI - tilt in
  let backside_sysaz := mod_ (PI + system_azimuth) (2 * PI) in
  (backside_tilt, backside_sysaz).

(* ===================================================================== *)
(** ** The full evaluation and the orchestrator *)
(* ===================================================================== *)

(** An [OrderedDict] with string keys, in insertion order. *)
Definition OrderedDict : Type := list (string * npfloat).

(** [get_irradiance] on scalar inputs (the result is then not a
    [pd.Series], so the mapping is returned as it is).  The keys and their
    order hold for every run.  The values are those of the source on a run
    whose divisor log has no zero in it; on a run with a zero divisor (at
    tilt 0 and pi the source computes 0/0 = nan in [f_ground_pv] or
    [f_sky_diffuse_pv], and [dhi / ghi] raises on built-in floats when ghi
    is 0.0) the entries are not meaningful, and the statements about
    values below assume [div_safe]. *)
Definition get_irradiance
  (solar_zenith solar_azimuth system_azimuth gcr height tilt pitch ghi dhi
     poa_ground poa_sky_diffuse poa_direct iam : R)
  (npoints : nat) (all_output : bool) : D OrderedDict :=
  (* calculate solar projection *)
  let tan_phi :=
    solar_projection_tangent solar_zenith solar_azimuth system_azimuth in
  (* fraction of ground illuminated accounting from shade from panels *)
  let f_gnd_beam := unshaded_ground_fraction gcr tilt tan_phi in
  (* diffuse fraction *)
  df <- diffuse_fraction ghi dhi ;;
  (* view factor from the ground in between infinited central rows *)
  vf <- vf_ground_sky gcr height tilt pitch npoints ;;
  let vf_gnd_sky := fst vf in
  let poa_gnd_sky := poa_ground_sky poa_ground f_gnd_beam df vf_gnd_sky in
  (* fraction of panel shaded *)
  f_x <- shade_line gcr tilt tan_phi ;;
  (* angles from shadeline to top of next row *)
  tan_psi_top <- sky_angle_tangent gcr tilt f_x ;;
  tan_psi_top_0 <- sky_angle_0_tangent gcr tilt ;;
  (* fraction of sky visible from shaded and unshaded parts *)
  f_sky <- f_sky_diffuse_pv tilt tan_psi_top tan_psi_top_0 ;;
  let f_sky_pv_shade := fst f_sky in
  let f_sky_pv_noshade := snd f_sky in
  (* total sky diffuse incident on plane of array *)
  let poa_sky_pv :=
    poa_sky_diffuse_pv poa_sky_diffuse f_x f_sky_pv_shade f_sky_pv_noshade in
  (* angles from shadeline to bottom of next row *)
  tan_psi_bottom <- ground_angle_tangent gcr tilt f_x ;;
  tan_psi_bottom_1 <- ground_angle_1_tangent gcr tilt ;;
  f_gnd <- f_ground_pv tilt tan_psi_bottom tan_psi_bottom_1 ;;
  let f_gnd_pv_shade := fst f_gnd in
  let f_gnd_pv_noshade := snd f_gnd in
  let poa_gnd_pv :=
    poa_ground_pv poa_gnd_sky f_x f_gnd_pv_shade f_gnd_pv_noshade in
  let poa_dif_pv := poa_diffuse_pv poa_gnd_pv poa_sky_pv in
  let poa_dir_pv := poa_direct_pv poa_direct iam f_x in
  let poa_glo_pv := poa_global_pv poa_dir_pv poa_dif_pv in
  let output : OrderedDict :=
    [ ("poa_global_pv", Fin poa_glo_pv);
      ("poa_direct_pv", Fin poa_dir_pv);
      ("poa_diffuse_pv", Fin poa_dif_pv);
      ("poa_ground_diffuse_pv", Fin poa_gnd_pv);
      ("poa_sky_diffuse_pv", Fin poa_sky_pv) ]%string in
  let output : OrderedDict :=
    if all_output then
      output ++
      [ ("solar_projection", Fin tan_phi);
        ("ground_illumination", Fin f_gnd_beam);
        ("diffuse_fraction", df);
        ("poa_ground_sky", Fin poa_gnd_sky);
        ("shade_line", Fin f_x);
        ("sky_angle_tangent", Fin tan_psi_top);
        ("sky_angle_0_tangent", Fin tan_psi_top_0);
        ("f_sky_diffuse_pv_shade", Fin f_sky_pv_shade);
        ("f_sky_diffuse_pv_noshade", Fin f_sky_pv_noshade);
        ("ground_angle_tangent", Fin tan_psi_bottom);
        ("ground_angle_1_tangent", Fin tan_psi_bottom_1);
        ("f_ground_diffuse_pv_shade", Fin f_gnd_pv_shade);
        ("f_ground_diffuse_pv_noshade", Fin f_gnd_pv_noshade) ]%string
    else output in
  ret output.

(** Values as the orchestrator handles them.  The bifacial parameters are
    Python numbers, and whether one is an [int] or a [float] decides what
    [str * number] does; the surfaces hold numbers or strings. *)
Inductive pynum : Type :=
| PyInt (n : Z)
| PyFlt (x : R).

Inductive pyval : Type :=
| PyNum (a : pynum)
| PyStr (s : string).

(** How a call can end. *)
Inductive outcome (A : Type) : Type :=
| Returned (a : A)
| TypeError.
Arguments Returned {A} a.
Arguments TypeError {A}.

Definition num_value (a : pynum) : R :=
  match a with
  | PyInt n => IZR n
  | PyFlt x => x
  end.

(** [a + b] and [a * b] on numbers: an [int] only when both are. *)
Definition add_num (a b : pynum) : pynum :=
  match a, b with
  | PyInt m, PyInt n => PyInt (m + n)
  | _, _ => PyFlt (num_value a + num_value b)
  end.

Definition mul_num (a b : pynum) : pynum :=
  match a, b with
  | PyInt m, PyInt n => PyInt (m * n)
  | _, _ => PyFlt (num_value a * num_value b)
  end.

(** [s * n] on a string: [n] copies, none when [n <= 0]. *)
Fixpoint repeat_string (s : string) (n : nat) : string :=
  match n with
  | O => EmptyString
  | S n' => String.append s (repeat_string s n')
  end.

(** [v * a]: a string can be repeated an [int] number of times, and
    [str * float] raises [TypeError]. *)
Definition py_mul (v : pyval) (a : pynum) : outcome pyval :=
  match v, a with
  | PyNum x, _ => Returned (PyNum (mul_num x a))
  | PyStr s, PyInt n => Returned (PyStr (repeat_string s (Z.to_nat n)))
  | PyStr _, PyFlt _ => TypeError
  end.

(** [u + v]: numbers add, strings concatenate, a mix raises [TypeError]. *)
Definition py_add (u v : pyval) : outcome pyval :=
  match u, v with
  | PyNum x, PyNum y => Returned (PyNum (add_num x y))
  | PyStr s, PyStr t => Returned (PyStr (String.append s t))
  | _, _ => TypeError
  end.

(** Star-unpacking of a mapping into positional arguments: iterating a
    mapping yields its keys. *)
Definition star_args (d : OrderedDict) : list pyval :=
  map (fun kv => PyStr (fst kv)) d.

(** The body of [poa_global_bifacial] on the values the orchestrator passes
    to it:
<<
    effects = (1+shade_factor)*(1+transmission_factor)
    return poa_global_front + poa_global_back * bifaciality * effects
>> *)
Definition poa_global_bifacial_call (poa_global_front poa_global_back : pyval)
  (bifaciality shade_factor transmission_factor : pynum) : outcome pyval :=
  let effects :=
    mul_num (add_num (PyInt 1) shade_factor)
            (add_num (PyInt 1) transmission_factor) in
  match py_mul poa_global_back bifaciality with
  | TypeError => TypeError
  | Returned scaled =>
      match py_mul scaled effects with
      | TypeError => TypeError
      | Returned derated => py_add poa_global_front derated
      end
  end.

Module PVSurface.

(** class [_PVSurface]: a bag of eighteen attributes. *)
Record _PVSurface : Type := mk {
  poa_global_pv : pyval;
  poa_direct_pv : pyval;
  poa_diffuse_pv : pyval;
  poa_ground_pv : pyval;
  poa_sky_diffuse_pv : pyval;
  tan_phi : pyval;
  f_gnd_beam : pyval;
  df : pyval;
  poa_ground_sky : pyval;
  f_x : pyval;
  tan_psi_top : pyval;
  tan_psi_top_0 : pyval;
  f_sky_pv_shade : pyval;
  f_sky_pv_noshade : pyval;
  tan_psi_bottom : pyval;
  tan_psi_bottom_1 : pyval;
  f_gnd_pv_shade : pyval;
  f_gnd_pv_noshade : pyval
}.

(** The constructor takes eighteen positional arguments, no defaults. *)
Definition __init__ (args : list pyval) : outcome _PVSurface :=
  match args with
  | [a1; a2; a3; a4; a5; a6; a7; a8; a9; a10; a11; a12; a13; a14; a15; a16;
     a17; a18] =>
      Returned (mk a1 a2 a3 a4 a5 a6 a7 a8 a9 a10 a11 a12 a13 a14 a15 a16
                  a17 a18)
  | _ => TypeError
  end.

End PVSurface.

Module InfiniteSheds.

Record t : Type := mk {
  system_azimuth : R;
  gcr : R;
  height : R;
  tilt : R;
  pitch : R;
  npoints : nat;
  is_bifacial : bool;
  bifaciality : pynum;
  shade_factor : pynum;
  transmission_factor : pynum;
  backside_tilt : R;
  backside_sysaz : R;
  tan_phi : option pyval;
  f_gnd_beam : option pyval;
  df : option pyval;
  front_side : option PVSurface._PVSurface;
  back_side : option PVSurface._PVSurface;
  poa_global_bifacial : option pyval
}.

Definition __init__ (system_azimuth gcr height tilt pitch : R)
  (npoints : nat) (is_bifacial : bool)
  (bifaciality shade_factor transmission_factor : pynum) : t :=
  let back := _backside tilt system_azimuth in
  mk system_azimuth gcr height tilt pitch npoints is_bifacial
     (if is_bifacial then bifaciality else PyFlt 0)
     shade_factor transmission_factor
     (fst back) (snd back)
     None None None None None None.

Definition set_front (self : t) (s : PVSurface._PVSurface) : t :=
  mk (system_azimuth self) (gcr self) (height self) (tilt self)
     (pitch self) (npoints self) (is_bifacial self) (bifaciality self)
     (shade_factor self) (transmission_factor self) (backside_tilt self)
     (backside_sysaz self)
     (Some (PVSurface.tan_phi s)) (Some (PVSurface.f_gnd_beam s))
     (Some (PVSurface.df s)) (Some s)
     (back_side self) (poa_global_bifacial self).

Definition set_back (self : t) (s : PVSurface._PVSurface) : t :=
  mk (system_azimuth self) (gcr self) (height self) (tilt self)
     (pitch self) (npoints self) (is_bifacial self) (bifaciality self)
     (shade_factor self) (transmission_factor self) (backside_tilt self)
     (backside_sysaz self)
     (tan_phi self) (f_gnd_beam self) (df self) (front_side self)
     (Some s) (poa_global_bifacial self).

Definition set_poa_global_bifacial (self : t) (v : pyval) : t :=
  mk (system_azimuth self) (gcr self) (height self) (tilt self)
     (pitch self) (npoints self) (is_bifacial self) (bifaciality self)
     (shade_factor self) (transmission_factor self) (backside_tilt self)
     (backside_sysaz self)
     (tan_phi self) (f_gnd_beam self) (df self) (front_side self)
     (back_side self) (Some v).

(** The method returns how the call ended together with the object as
    the call left it. *)
Definition get_irradiance (self : t)
  (solar_zenith solar_azimuth ghi dhi poa_ground poa_sky_diffuse
     poa_direct iam : R) : D (outcome pyval * t) :=
  d <- get_irradiance solar_zenith solar_azimuth (system_azimuth self)
         (gcr self) (height self) (tilt self) (pitch self) ghi dhi
         poa_ground poa_sky_diffuse poa_direct iam (npoints self) true ;;
  match PVSurface.__init__ (star_args d) with
  | TypeError => ret (TypeError, self)
  | Returned front =>
      let self := set_front self front in
      if Rltb 0 (num_value (bifaciality self)) then
        d <- get_irradiance solar_zenith solar_azimuth (backside_sysaz self)
               (gcr self) (height self) (backside_tilt self) (pitch self)
               ghi dhi poa_ground poa_sky_diffuse poa_direct iam
               (npoints self) true ;;
        match PVSurface.__init__ (star_args d) with
        | TypeError => ret (TypeError, self)
        | Returned back =>
            let self := set_back self back in
            match
              poa_global_bifacial_call (PVSurface.poa_global_pv front)
                (PVSurface.poa_global_pv back) (bifaciality self)
                (shade_factor self) (transmission_factor self)
            with
            | TypeError => ret (TypeError, self)
            | Returned v =>
                ret (Returned v, set_poa_global_bifacial self v)
            end
        end
      else ret (Returned (PVSurface.poa_global_pv front), self)
  end.

End InfiniteSheds.

(* ===================================================================== *)
(** ** Vocabulary of the statements *)
(* ===================================================================== *)

(** The configurations the model is meant for. *)
Definition valid_config (gcr height tilt pitch : R) : Prop :=
  0 < gcr <= 1 /\ 0 <= height /\ 0 <= tilt <= PI /\ 0 < pitch.

(** The near-flat parameterization of [ground_sky_angles_next], as the
    specification words it: angles taken from the module edges, without
    [gcr_prime]. *)
Definition ground_sky_angles_next_near_flat (f_z gcr height tilt pitch : R)
  : R * R :=
  let fzprime := 1 - f_z in
  let zprime := fzprime * pitch in
  (arctan2 height (- zprime),
   arctan2 (gcr * sin tilt + height / pitch)
           ((1 + fzprime) + gcr * cos tilt)).

(** The same for [ground_sky_angles_prev]. *)
Definition ground_sky_angles_prev_near_flat (f_z gcr height tilt pitch : R)
  : R * R :=
  let z := f_z * pitch in
  (arctan2 (gcr * sin (PI - tilt) + height / pitch)
           ((1 + f_z) + gcr * cos (PI - tilt)),
   arctan2 height (- z)).

(** The [gcr_prime] parameterization of [ground_sky_angles_next]. *)
Definition ground_sky_angles_next_general (f_z gcr height tilt pitch : R)
  : R * R :=
  let gcr_prime := gcr + height / sin tilt / pitch in
  let fzprime := 1 - f_z in
  let zprime := fzprime * pitch in
  (arctan2 height (height / tan (PI - tilt) - zprime),
   arctan2 (sin tilt) ((1 + fzprime) / gcr_prime + cos tilt)).

(** [d[key]] on the mapping; [None] stands for [KeyError]. *)
Fixpoint getitem (d : OrderedDict) (key : string) : option npfloat :=
  match d with
  | [] => None
  | (k, v) :: d' => if String.eqb k key then Some v else getitem d' key
  end.

(** The keys of a mapping, in order. *)
Definition keys (d : OrderedDict) : list string := map fst d.

(** What [irradiance.get_total_irradiance] returns, as far as this module
    reads it. *)
Module Irradiance.
Record t : Type := mk {
  poa_ground_diffuse : R;
  poa_sky_diffuse : R;
  poa_direct : R
}.
End Irradiance.

Section Collaborators.

(** The transposition model, the angle of incidence and the ASHRAE
    incidence-angle modifier live in other modules of the package
    ([irradiance], [iam]); they are parameters here. *)
Variable aoi : R -> R -> R -> R -> R.
Variable get_total_irradiance :
  R -> R -> R -> R -> R -> R -> R -> R -> R -> string -> Irradiance.t.
Variable ashrae : R -> R -> R.

(** [get_poa_global_bifacial]; [None] stands for a failed lookup of
    ['poa_global_pv'] or a non-finite operand. *)
Definition get_poa_global_bifacial
  (solar_zenith solar_azimuth system_azimuth gcr height tilt pitch ghi dhi
     dni dni_extra am_rel iam_b0_front iam_b0_back bifaciality shade_factor
     transmission_factor : R) (method : string) : D (option R) :=
  (* backside is rotated and flipped relative to front *)
  let back := _backside tilt system_azimuth in
  let backside_tilt := fst back in
  let backside_sysaz := snd back in
  (* AOI *)
  let aoi_front := aoi tilt system_azimuth solar_zenith solar_azimuth in
  let aoi_back :=
    aoi backside_tilt backside_sysaz solar_zenith solar_azimuth in
  (* transposition *)
  let irrad_front :=
    get_total_irradiance tilt system_azimuth solar_zenith solar_azimuth
      dni ghi dhi dni_extra am_rel method in
  let irrad_back :=
    get_total_irradiance backside_tilt backside_sysaz solar_zenith
      solar_azimuth dni ghi dhi dni_extra am_rel method in
  (* iam *)
  let iam_front := ashrae aoi_front iam_b0_front in
  let iam_back := ashrae aoi_back iam_b0_back in
  (* get front side *)
  poa_global_front <-
    get_irradiance solar_zenith solar_azimuth system_azimuth gcr height tilt
      pitch ghi dhi (Irradiance.poa_ground_diffuse irrad_front)
      (Irradiance.poa_sky_diffuse irrad_front)
      (Irradiance.poa_direct irrad_front) iam_front 100 false ;;
  (* get backside *)
  poa_global_back <-
    get_irradiance solar_zenith solar_azimuth backside_sysaz gcr height
      backside_tilt pitch ghi dhi (Irradiance.poa_ground_diffuse irrad_back)
      (Irradiance.poa_sky_diffuse irrad_back)
      (Irradiance.poa_direct irrad_back) iam_back 100 false ;;
  (* get bifacial *)
  match getitem poa_global_front "poa_global_pv",
        getitem poa_global_back "poa_global_pv" with
  | Some (Fin front), Some (Fin back) =>
      ret (Some (poa_global_bifacial front back bifaciality shade_factor
                   transmission_factor))
  | _, _ => ret None
  end.

End Collaborators.

(* ===================================================================== *)
(** ** Basic facts about the helpers *)
(* ===================================================================== *)

Lemma Rltb_true x y : Rltb x y = true <-> x < y.
Proof. unfold Rltb; destruct (Rlt_dec x y); split; intros; try easy; lra. Qed.

Lemma Rltb_false x y : Rltb x y = false <-> y <= x.
Proof. unfold Rltb; destruct (Rlt_dec x y); split; intros; try easy; lra. Qed.

Lemma value_bind {A B} (m : D A) (f : A -> D B) :
  value (bind m f) = value (f (value m)).
Proof. reflexivity. Qed.

Lemma divisors_bind {A B} (m : D A) (f : A -> D B) :
  divisors (bind m f) = divisors m ++ divisors (f (value m)).
Proof. reflexivity. Qed.

Lemma value_mapM {A B} (f : A -> D B) (l : list A) :
  value (mapM f l) = map (fun a => value (f a)) l.
Proof.
  induction l as [|a l IH]; [reflexivity|].
  cbn [mapM]. rewrite !value_bind. cbn. f_equal. exact IH.
Qed.

Lemma near_flat_true tilt :
  near_flat tilt = true <-> tilt < EPS \/ PI - EPS < tilt.
Proof.
  unfold near_flat. rewrite Bool.orb_true_iff, !Rltb_true. tauto.
Qed.

Lemma near_flat_0 : near_flat 0 = true.
Proof. apply near_flat_true. left. unfold EPS. lra. Qed.





(* ===================================================================== *)
(** ** Sun overhead, fully diffuse sky, back side, bifacial combination *)
(* ===================================================================== *)

Lemma unshaded_ground_fraction_tan0 gcr tilt :
  0 < gcr <= 1 ->
  unshaded_ground_fraction gcr tilt 0 = 1 - gcr * Rabs (cos tilt).
Proof.
  intros Hg. unfold unshaded_ground_fraction.
  replace (cos tilt + sin tilt * 0) with (cos tilt) by ring.
  assert (Hc : 0 <= Rabs (cos tilt) <= 1).
  { split; [apply Rabs_pos|].
    apply Rabs_le. destruct (COS_bound tilt). lra. }
  rewrite Rmin_right; [reflexivity | nra].
Qed.

(** C5, as stated, fails: with the module facing down (tilt = pi) and
    gcr = 1/2 the sun-overhead unshaded fraction is 1/2, not
    1 - gcr*cos(tilt) = 3/2. *)
Lemma unshaded_ground_fraction_overhead_not_cos :
  0 < 1 / 2 <= 1 /\ 0 <= PI <= PI /\
  unshaded_ground_fraction (1 / 2) PI (solar_projection_tangent 0 0 0) = 1 / 2 /\
  unshaded_ground_fraction (1 / 2) PI (solar_projection_tangent 0 0 0)
    <> 1 - 1 / 2 * cos PI.
Proof.
  assert (Hpi := PI_RGT_0).
  assert (Hv : unshaded_ground_fraction (1 / 2) PI
                 (solar_projection_tangent 0 0 0) = 1 / 2).
  { unfold solar_projection_tangent. rewrite tan_0, Rmult_0_r.
    rewrite unshaded_ground_fraction_tan0 by lra.
    rewrite cos_PI. unfold Rabs. destruct (Rcase_abs (-1)); lra. }
  repeat split; try lra.
  rewrite Hv, cos_PI. lra.
Qed.

(** C5 (amended): with the sun overhead the projection tangent is 0 for
    every pair of azimuths, and the unshaded ground fraction is
    1 - gcr*|cos(tilt)| for gcr in (0,1] and tilt in [0,pi]; that is
    1 - gcr*cos(tilt) when tilt <= pi/2 and 1 + gcr*cos(tilt) above. *)
Theorem sun_overhead_unshaded_ground_fraction
  (solar_azimuth system_azimuth gcr tilt : R) :
  0 < gcr <= 1 -> 0 <= tilt <= PI ->
  let tan_phi := solar_projection_tangent 0 solar_azimuth system_azimuth in
  tan_phi = 0 /\
  unshaded_ground_fraction gcr tilt tan_phi = 1 - gcr * Rabs (cos tilt) /\
  (tilt <= PI / 2 ->
   unshaded_ground_fraction gcr tilt tan_phi = 1 - gcr * cos tilt) /\
  (PI / 2 <= tilt ->
   unshaded_ground_fraction gcr tilt tan_phi = 1 + gcr * cos tilt).
Proof.
  intros Hg Ht tan_phi.
  assert (H0 : tan_phi = 0).
  { unfold tan_phi, solar_projection_tangent. rewrite tan_0. ring. }
  rewrite H0, unshaded_ground_fraction_tan0 by exact Hg.
  repeat split.
  - intros Hle. rewrite Rabs_right; [reflexivity|].
    apply Rle_ge, cos_ge_0; lra.
  - intros Hge. rewrite Rabs_left1; [ring|].
    apply cos_le_0; lra.
Qed.

Lemma sun_overhead_unshaded_ground_fraction_witness :
  let tan_phi := solar_projection_tangent 0 1 2 in
  tan_phi = 0 /\
  unshaded_ground_fraction (1 / 2) 1 tan_phi = 1 - 1 / 2 * Rabs (cos 1) /\
  (1 <= PI / 2 ->
   unshaded_ground_fraction (1 / 2) 1 tan_phi = 1 - 1 / 2 * cos 1) /\
  (PI / 2 <= 1 ->
   unshaded_ground_fraction (1 / 2) 1 tan_phi = 1 + 1 / 2 * cos 1).
Proof.
  apply (sun_overhead_unshaded_ground_fraction 1 2 (1 / 2) 1).
  - lra.
  - pose proof PI2_1. lra.
Defined.

(** C6: with ghi = dhi (and ghi non-zero) the diffuse fraction is 1 and
    poa_ground_sky is poa_ground * vf_gnd_sky; with a non-finite diffuse
    fraction it behaves as for df = 0 and is poa_ground * f_gnd_beam. *)
Theorem poa_ground_sky_fully_diffuse
  (poa_ground f_gnd_beam vf_gnd_sky ghi dhi : R) :
  ghi = dhi -> ghi <> 0 ->
  value (diffuse_fraction ghi dhi) = Fin 1 /\
  poa_ground_sky poa_ground f_gnd_beam (value (diffuse_fraction ghi dhi))
    vf_gnd_sky = poa_ground * vf_gnd_sky /\
  (forall df : npfloat, isfinite df = false ->
     poa_ground_sky poa_ground f_gnd_beam df vf_gnd_sky
     = poa_ground_sky poa_ground f_gnd_beam (Fin 0) vf_gnd_sky /\
     poa_ground_sky poa_ground f_gnd_beam df vf_gnd_sky
     = poa_ground * f_gnd_beam).
Proof.
  intros Heq Hnz. subst dhi.
  assert (Hdf : value (diffuse_fraction ghi ghi) = Fin 1).
  { unfold diffuse_fraction, div_float, value; cbn.
    destruct (Req_dec_T ghi 0) as [E|_]; [contradiction|].
    f_equal. field. exact Hnz. }
  split; [exact Hdf|]. split.
  - rewrite Hdf. unfold poa_ground_sky; cbn. ring.
  - intros df Hdf'. unfold poa_ground_sky.
    destruct df; cbn in *; try discriminate; split; ring.
Qed.

Lemma poa_ground_sky_fully_diffuse_witness :
  value (diffuse_fraction 300 300) = Fin 1 /\
  poa_ground_sky 40 (3 / 4) (value (diffuse_fraction 300 300)) (1 / 2)
  = 40 * (1 / 2) /\
  (forall df : npfloat, isfinite df = false ->
     poa_ground_sky 40 (3 / 4) df (1 / 2)
     = poa_ground_sky 40 (3 / 4) (Fin 0) (1 / 2) /\
     poa_ground_sky 40 (3 / 4) df (1 / 2) = 40 * (3 / 4)).
Proof.
  apply (poa_ground_sky_fully_diffuse 40 (3 / 4) (1 / 2) 300 300).
  - reflexivity.
  - lra.
Defined.

(** The diffuse fraction is non-finite exactly when ghi is zero. *)
Lemma diffuse_fraction_nonfinite ghi dhi :
  isfinite (value (diffuse_fraction ghi dhi)) = false <-> ghi = 0.
Proof.
  unfold diffuse_fraction, div_float, value; cbn.
  destruct (Req_dec_T ghi 0) as [E|N].
  - split; [intros _; exact E|intros _].
    destruct (Rltb 0 dhi), (Rltb dhi 0); reflexivity.
  - split; [discriminate|contradiction].
Qed.

Lemma mod__range x m : 0 < m -> 0 <= mod_ x m < m.
Proof.
  intros Hm. unfold mod_.
  destruct (base_Int_part (x / m)) as [H1 H2].
  assert (Hx : x = x / m * m) by (field; lra).
  split.
  - assert (IZR (Int_part (x / m)) * m <= x / m * m) by nra. lra.
  - assert (x / m * m < (IZR (Int_part (x / m)) + 1) * m) by nra. lra.
Qed.

Lemma backside_twice_azimuth tilt system_azimuth :
  exists k : Z,
    snd (_backside (fst (_backside tilt system_azimuth))
                   (snd (_backside tilt system_azimuth)))
    = system_azimuth + IZR k * (2 * PI).
Proof.
  cbn. unfold mod_.
  exists (1 - Int_part ((PI + system_azimuth) / (2 * PI))
          - Int_part ((PI + ((PI + system_azimuth)
               - IZR (Int_part ((PI + system_azimuth) / (2 * PI)))
                 * (2 * PI))) / (2 * PI)))%Z.
  rewrite !minus_IZR. ring.
Qed.

(** C7: the back-side transform applied twice gives back the tilt, and
    the azimuth up to a whole number of turns (2*pi). *)
Theorem backside_involution (tilt system_azimuth : R) :
  let back := _backside tilt system_azimuth in
  let twice := _backside (fst back) (snd back) in
  fst twice = tilt /\
  (exists k : Z, snd twice = system_azimuth + IZR k * (2 * PI)) /\
  0 <= snd twice < 2 * PI.
Proof.
  cbv zeta. split; [cbn; ring|]. split.
  - apply backside_twice_azimuth.
  - apply mod__range. pose proof PI_RGT_0. lra.
Qed.

(** On an azimuth already wrapped into [0, 2*pi) the round trip is exact. *)
Lemma backside_twice_wrapped tilt system_azimuth :
  0 <= system_azimuth < 2 * PI ->
  _backside (fst (_backside tilt system_azimuth))
            (snd (_backside tilt system_azimuth)) = (tilt, system_azimuth).
Proof.
  intros Hr. pose proof PI_RGT_0 as Hpi.
  destruct (backside_twice_azimuth tilt system_azimuth) as [k Hk].
  assert (Hrange : 0 <= snd (_backside (fst (_backside tilt system_azimuth))
                               (snd (_backside tilt system_azimuth)))
                   < 2 * PI) by (apply mod__range; lra).
  rewrite (surjective_pairing (_backside _ _)). f_equal; [cbn; ring|].
  rewrite Hk in *.
  assert (Hk0 : k = 0%Z).
  { assert (-1 < IZR k < 1) by (split; nra).
    destruct H as [Ha Hb]. apply lt_IZR in Ha, Hb. lia. }
  subst k. lra.
Qed.

(** C8: for a non-negative back-side irradiance and non-negative derating
    product, poa_global_bifacial is non-decreasing in the bifaciality, and
    it is exactly the front-side irradiance at bifaciality 0. *)
Theorem poa_global_bifacial_monotone
  (front back bif1 bif2 shade_factor transmission_factor : R) :
  0 <= back -> 0 <= (1 + shade_factor) * (1 + transmission_factor) ->
  bif1 <= bif2 ->
  poa_global_bifacial front back bif1 shade_factor transmission_factor
  <= poa_global_bifacial front back bif2 shade_factor transmission_factor
  /\ poa_global_bifacial front back 0 shade_factor transmission_factor = front.
Proof.
  intros Hb He Hle. unfold poa_global_bifacial. split; [|ring].
  set (e := (1 + shade_factor) * (1 + transmission_factor)) in *.
  assert (0 <= back * e) by nra.
  nra.
Qed.

Lemma poa_global_bifacial_monotone_witness :
  poa_global_bifacial 800 100 (1 / 2) (- (1 / 50)) 0
  <= poa_global_bifacial 800 100 (4 / 5) (- (1 / 50)) 0
  /\ poa_global_bifacial 800 100 0 (- (1 / 50)) 0 = 800.
Proof.
  apply (poa_global_bifacial_monotone 800 100 (1 / 2) (4 / 5) (- (1 / 50)) 0);
    lra.
Defined.

(* ===================================================================== *)
(** ** The orchestrator *)
(* ===================================================================== *)

Section Orchestrator.

Variables system_azimuth gcr height tilt pitch : R.
Variable npoints : nat.
Variables bifaciality shade_factor transmission_factor : pynum.
Variables solar_zenith solar_azimuth ghi dhi : R.
Variables poa_ground poa_sky_diffuse poa_direct iam : R.

(** With every diagnostic requested the mapping has eighteen keys, in the
    order of the constructor's parameters. *)
Lemma get_irradiance_all_output_keys sysaz tlt :
  star_args
    (value (get_irradiance solar_zenith solar_azimuth sysaz gcr height tlt
              pitch ghi dhi poa_ground poa_sky_diffuse poa_direct iam
              npoints true))
  = map PyStr
      [ "poa_global_pv"; "poa_direct_pv"; "poa_diffuse_pv";
        "poa_ground_diffuse_pv"; "poa_sky_diffuse_pv"; "solar_projection";
        "ground_illumination"; "diffuse_fraction"; "poa_ground_sky";
        "shade_line"; "sky_angle_tangent"; "sky_angle_0_tangent";
        "f_sky_diffuse_pv_shade"; "f_sky_diffuse_pv_noshade";
        "ground_angle_tangent"; "ground_angle_1_tangent";
        "f_ground_diffuse_pv_shade"; "f_ground_diffuse_pv_noshade" ]%string.
Proof. reflexivity. Qed.

Local Abbreviation monofacial :=
  (InfiniteSheds.__init__ system_azimuth gcr height tilt pitch npoints false
     bifaciality shade_factor transmission_factor).

Local Abbreviation run :=
  (value (InfiniteSheds.get_irradiance monofacial solar_zenith solar_azimuth
            ghi dhi poa_ground poa_sky_diffuse poa_direct iam)).

(** The monofacial path in the model: the front surface is stored, the
    bifacial branch is skipped, and the value handed back is the
    poa_global_pv attribute of that surface, which holds the key's name. *)
Lemma monofacial_run :
  InfiniteSheds.bifaciality monofacial = PyFlt 0 /\
  fst run = Returned (PyStr "poa_global_pv") /\
  (exists front,
      InfiniteSheds.front_side (snd run) = Some front /\
      PVSurface.poa_global_pv front = PyStr "poa_global_pv") /\
  InfiniteSheds.back_side (snd run) = None /\
  InfiniteSheds.poa_global_bifacial (snd run) = None.
Proof.
  split; [reflexivity|].
  unfold InfiniteSheds.get_irradiance.
  rewrite value_bind.
  cbn [InfiniteSheds.system_azimuth InfiniteSheds.gcr InfiniteSheds.height
       InfiniteSheds.tilt InfiniteSheds.pitch InfiniteSheds.npoints
       InfiniteSheds.__init__].
  rewrite get_irradiance_all_output_keys.
  cbn [map PVSurface.__init__ InfiniteSheds.set_front
       InfiniteSheds.bifaciality].
  change (num_value (InfiniteSheds.bifaciality monofacial)) with 0.
  assert (H0 : Rltb 0 0 = false) by (apply Rltb_false; lra).
  rewrite H0. cbn.
  split; [reflexivity|].
  split; [eexists; split; reflexivity|]. split; reflexivity.
Qed.

Local Abbreviation bifacial :=
  (InfiniteSheds.__init__ system_azimuth gcr height tilt pitch npoints true
     bifaciality shade_factor transmission_factor).

Local Abbreviation bifacial_run :=
  (value (InfiniteSheds.get_irradiance bifacial solar_zenith solar_azimuth
            ghi dhi poa_ground poa_sky_diffuse poa_direct iam)).

(** The bifacial path in the model: both surfaces are stored with the
    keys' names as attributes, and the outcome is that of
    poa_global_bifacial on the string 'poa_global_pv' twice. *)
Lemma bifacial_run_outcome :
  0 < num_value bifaciality ->
  (exists front back,
      InfiniteSheds.front_side (snd bifacial_run) = Some front /\
      InfiniteSheds.back_side (snd bifacial_run) = Some back /\
      PVSurface.poa_global_pv front = PyStr "poa_global_pv" /\
      PVSurface.poa_global_pv back = PyStr "poa_global_pv") /\
  fst bifacial_run
  = poa_global_bifacial_call (PyStr "poa_global_pv") (PyStr "poa_global_pv")
      bifaciality shade_factor transmission_factor /\
  InfiniteSheds.poa_global_bifacial (snd bifacial_run)
  = match fst bifacial_run with
    | Returned v => Some v
    | TypeError => None
    end.
Proof.
  intros Hb.
  unfold InfiniteSheds.get_irradiance.
  rewrite value_bind.
  cbn [InfiniteSheds.system_azimuth InfiniteSheds.gcr InfiniteSheds.height
       InfiniteSheds.tilt InfiniteSheds.pitch InfiniteSheds.npoints
       InfiniteSheds.__init__].
  rewrite get_irradiance_all_output_keys.
  cbn [map PVSurface.__init__ InfiniteSheds.set_front
       InfiniteSheds.bifaciality].
  change (num_value (InfiniteSheds.bifaciality bifacial))
    with (num_value bifaciality).
  assert (Hlt : Rltb 0 (num_value bifaciality) = true)
    by (apply Rltb_true; exact Hb).
  rewrite Hlt, value_bind.
  cbn [InfiniteSheds.gcr InfiniteSheds.height InfiniteSheds.pitch
       InfiniteSheds.npoints InfiniteSheds.backside_sysaz
       InfiniteSheds.backside_tilt].
  rewrite get_irradiance_all_output_keys.
  cbn [map PVSurface.__init__ PVSurface.poa_global_pv
       InfiniteSheds.set_back InfiniteSheds.set_front InfiniteSheds.__init__
       InfiniteSheds.bifaciality InfiniteSheds.shade_factor
       InfiniteSheds.transmission_factor].
  destruct (poa_global_bifacial_call (PyStr "poa_global_pv")
              (PyStr "poa_global_pv") bifaciality shade_factor
              transmission_factor) as [v|];
    cbn; (split; [do 2 eexists; repeat split; reflexivity|]);
    split; reflexivity.
Qed.

End Orchestrator.

(* ===================================================================== *)
(** ** Trigonometry used below *)
(* ===================================================================== *)

Lemma cos_PI_minus x : cos (PI - x) = - cos x.
Proof. rewrite cos_minus, cos_PI, sin_PI. ring. Qed.

Lemma tan_PI_minus x : tan (PI - x) = - tan x.
Proof.
  unfold tan. rewrite sin_PI_x, cos_PI_minus. apply Rdiv_opp_r.
Qed.

Lemma PI_gt_2 : 2 < PI.
Proof. pose proof PI2_1. lra. Qed.

Lemma sin_pos_open x : 0 < x < PI -> 0 < sin x.
Proof. intros [? ?]. apply sin_gt_0; assumption. Qed.

Lemma tan_neq_0 x : sin x <> 0 -> cos x <> 0 -> tan x <> 0.
Proof.
  intros Hs Hc. unfold tan, Rdiv.
  apply Rmult_integral_contrapositive_currified;
    [exact Hs | apply Rinv_neq_0_compat; exact Hc].
Qed.

Lemma atan_inj x y : atan x = atan y -> x = y.
Proof.
  intros H. rewrite <- (tan_atan x), <- (tan_atan y). now rewrite H.
Qed.

Lemma arctan2_pos_x y x : 0 < x -> arctan2 y x = atan (y / x).
Proof.
  intros Hx. unfold arctan2.
  now replace (Rltb 0 x) with true by (symmetry; apply Rltb_true; exact Hx).
Qed.

Lemma arctan2_neg_x y x : x < 0 -> 0 <= y -> arctan2 y x = atan (y / x) + PI.
Proof.
  intros Hx Hy. unfold arctan2.
  replace (Rltb 0 x) with false by (symmetry; apply Rltb_false; lra).
  replace (Rltb x 0) with true by (symmetry; apply Rltb_true; exact Hx).
  now replace (Rltb y 0) with false by (symmetry; apply Rltb_false; lra).
Qed.

Lemma arctan2_zero_x y : 0 < y -> arctan2 y 0 = PI / 2.
Proof.
  intros Hy. unfold arctan2.
  replace (Rltb 0 0) with false by (symmetry; apply Rltb_false; lra).
  now replace (Rltb 0 y) with true by (symmetry; apply Rltb_true; exact Hy).
Qed.

(** The angle is small enough for the cosine to stay above one half. *)
Lemma cos_atan_gt_half u : u * u < 3 -> 1 / 2 < cos (atan u).
Proof.
  intros Hu. rewrite cos_atan.
  assert (Hpos : 0 < 1 + u²) by (unfold Rsqr; nra).
  pose proof (sqrt_lt_R0 _ Hpos) as Hs.
  pose proof (sqrt_sqrt (1 + u²) (Rlt_le _ _ Hpos)) as Hss.
  unfold Rsqr in *.
  assert (Hlt : sqrt (1 + u * u) < 2) by nra.
  apply (Rmult_lt_reg_r (sqrt (1 + u * u))); [exact Hs|].
  replace (1 / sqrt (1 + u * u) * sqrt (1 + u * u)) with 1 by (field; lra).
  lra.
Qed.

(* ===================================================================== *)
(** ** Quotients of the ground-to-sky angles *)
(* ===================================================================== *)

(** [ground_sky_angles] tests the tilt first: near flat it divides nothing. *)
Lemma ground_sky_angles_near_flat f_z gcr height tilt pitch :
  near_flat tilt = true ->
  ground_sky_angles f_z gcr height tilt pitch = ((0, 0), []).
Proof. intros H. unfold ground_sky_angles. now rewrite H. Qed.

(** The other two call [_gcr_prime] before any test, so their first
    divisor is always sin(tilt). *)
Lemma ground_sky_angles_prev_first_divisor f_z gcr height tilt pitch :
  hd 1 (divisors (ground_sky_angles_prev f_z gcr height tilt pitch)) = sin tilt.
Proof. reflexivity. Qed.

Lemma ground_sky_angles_next_first_divisor f_z gcr height tilt pitch :
  hd 1 (divisors (ground_sky_angles_next f_z gcr height tilt pitch)) = sin tilt.
Proof. reflexivity. Qed.

Lemma ground_sky_angles_prev_near_flat_divisors f_z gcr height tilt pitch :
  near_flat tilt = true ->
  divisors (ground_sky_angles_prev f_z gcr height tilt pitch)
  = [sin tilt; pitch; pitch].
Proof.
  intros H. unfold ground_sky_angles_prev.
  rewrite divisors_bind, H. reflexivity.
Qed.

Lemma ground_sky_angles_next_near_flat_divisors f_z gcr height tilt pitch :
  near_flat tilt = true ->
  divisors (ground_sky_angles_next f_z gcr height tilt pitch)
  = [sin tilt; pitch; pitch; tan (PI - tilt);
     gcr + height / sin tilt / pitch].
Proof.
  intros H. unfold ground_sky_angles_next.
  rewrite !divisors_bind, H. reflexivity.
Qed.

(** C2 at tilt = 0 (a valid, near-flat tilt): [ground_sky_angles] performs
    no quotient, but [ground_sky_angles_prev] and [ground_sky_angles_next]
    both divide the height by sin(0) = 0 inside [_gcr_prime], and the
    latter divides by tan(pi - 0) = 0 as well. *)
Theorem near_flat_angles_divide_by_zero :
  valid_config (1 / 2) 1 0 1 /\ near_flat 0 = true /\
  divisors (ground_sky_angles 0 (1 / 2) 1 0 1) = [] /\
  divisors (ground_sky_angles_prev 0 (1 / 2) 1 0 1) = [0; 1; 1] /\
  nth 0 (divisors (ground_sky_angles_next 0 (1 / 2) 1 0 1)) 1 = 0 /\
  nth 3 (divisors (ground_sky_angles_next 0 (1 / 2) 1 0 1)) 1 = 0 /\
  ~ div_safe (ground_sky_angles_prev 0 (1 / 2) 1 0 1) /\
  ~ div_safe (ground_sky_angles_next 0 (1 / 2) 1 0 1).
Proof.
  pose proof PI_RGT_0 as Hpi.
  assert (Hp : divisors (ground_sky_angles_prev 0 (1 / 2) 1 0 1) = [0; 1; 1]).
  { rewrite ground_sky_angles_prev_near_flat_divisors by apply near_flat_0.
    now rewrite sin_0. }
  assert (Hn : divisors (ground_sky_angles_next 0 (1 / 2) 1 0 1)
               = [0; 1; 1; 0; 1 / 2 + 1 / 0 / 1]).
  { rewrite ground_sky_angles_next_near_flat_divisors by apply near_flat_0.
    now rewrite sin_0, Rminus_0_r, tan_PI. }
  split; [unfold valid_config; lra|].
  split; [apply near_flat_0|].
  split; [now rewrite ground_sky_angles_near_flat by apply near_flat_0|].
  split; [exact Hp|]. split; [now rewrite Hn|]. split; [now rewrite Hn|].
  unfold div_safe. rewrite Hp, Hn.
  split; intros H; inversion H; subst; congruence.
Qed.

(** Away from the two end points the near-flat runs are clean: the only
    tilts of the near-flat range with a zero divisor are 0 and pi. *)
Lemma near_flat_angles_div_safe f_z gcr height tilt pitch :
  valid_config gcr height tilt pitch -> near_flat tilt = true ->
  0 < tilt < PI ->
  div_safe (ground_sky_angles f_z gcr height tilt pitch) /\
  div_safe (ground_sky_angles_prev f_z gcr height tilt pitch) /\
  div_safe (ground_sky_angles_next f_z gcr height tilt pitch).
Proof.
  intros (Hg & Hh & Ht & Hp) Hnf Hopen.
  pose proof (sin_pos_open tilt Hopen) as Hsin.
  pose proof PI_gt_2 as Hpi.
  assert (Hcos : cos tilt <> 0).
  { apply near_flat_true in Hnf. unfold EPS in Hnf. destruct Hnf as [Hlo|Hhi].
    - apply Rgt_not_eq. apply cos_gt_0; lra.
    - apply Rlt_not_eq. apply cos_lt_0; lra. }
  assert (Htan : tan (PI - tilt) <> 0).
  { rewrite tan_PI_minus. apply Ropp_neq_0_compat.
    apply tan_neq_0; [lra | exact Hcos]. }
  assert (Hgp : gcr + height / sin tilt / pitch <> 0).
  { assert (0 <= height / sin tilt / pitch).
    { unfold Rdiv. apply Rmult_le_pos; [apply Rmult_le_pos|];
        try lra; left; apply Rinv_0_lt_compat; lra. }
    lra. }
  unfold div_safe.
  rewrite ground_sky_angles_near_flat by exact Hnf.
  rewrite ground_sky_angles_prev_near_flat_divisors by exact Hnf.
  rewrite ground_sky_angles_next_near_flat_divisors by exact Hnf.
  repeat split; repeat constructor; try lra; assumption.
Qed.

(* ===================================================================== *)
(** ** Which formulas the near-flat branch returns *)
(* ===================================================================== *)

(** [ground_sky_angles_prev] returns from its near-flat branch. *)
Lemma ground_sky_angles_prev_near_flat_value f_z gcr height tilt pitch :
  near_flat tilt = true ->
  value (ground_sky_angles_prev f_z gcr height tilt pitch)
  = ground_sky_angles_prev_near_flat f_z gcr height tilt pitch.
Proof.
  intros H. unfold ground_sky_angles_prev.
  rewrite value_bind, H. reflexivity.
Qed.

(** [ground_sky_angles_next] has no return in its near-flat branch: whatever
    the tilt, its result is the [gcr_prime] one. *)
Lemma ground_sky_angles_next_value f_z gcr height tilt pitch :
  value (ground_sky_angles_next f_z gcr height tilt pitch)
  = ground_sky_angles_next_general f_z gcr height tilt pitch.
Proof. reflexivity. Qed.

Lemma near_flat_small : near_flat (1 / 2000) = true.
Proof. apply near_flat_true. left. unfold EPS. lra. Qed.

Lemma tan_small_pos : 0 < tan (1 / 2000).
Proof. pose proof PI_gt_2. apply tan_gt_0; lra. Qed.

(** C3 at tilt = 1/2000 (within 1e-3 of 0), f_z = 0, gcr = 1/2, height = 1,
    pitch = 1, where every divisor is non-zero: [ground_sky_angles_next]
    returns the [gcr_prime] angles, and its psi_0 is not the near-flat
    atan2(height, -z'); [ground_sky_angles_prev] does return its near-flat
    angles. *)
Theorem ground_sky_angles_next_ignores_near_flat_branch :
  valid_config (1 / 2) 1 (1 / 2000) 1 /\ near_flat (1 / 2000) = true /\
  div_safe (ground_sky_angles_next 0 (1 / 2) 1 (1 / 2000) 1) /\
  value (ground_sky_angles_next 0 (1 / 2) 1 (1 / 2000) 1)
  = ground_sky_angles_next_general 0 (1 / 2) 1 (1 / 2000) 1 /\
  fst (value (ground_sky_angles_next 0 (1 / 2) 1 (1 / 2000) 1))
  <> fst (ground_sky_angles_next_near_flat 0 (1 / 2) 1 (1 / 2000) 1) /\
  value (ground_sky_angles_prev 0 (1 / 2) 1 (1 / 2000) 1)
  = ground_sky_angles_prev_near_flat 0 (1 / 2) 1 (1 / 2000) 1.
Proof.
  pose proof PI_gt_2 as Hpi. pose proof tan_small_pos as Htan.
  assert (Hv : valid_config (1 / 2) 1 (1 / 2000) 1)
    by (unfold valid_config; lra).
  split; [exact Hv|]. split; [apply near_flat_small|].
  split.
  { apply (near_flat_angles_div_safe 0 _ _ _ _ Hv near_flat_small). lra. }
  split; [reflexivity|].
  split; [|apply ground_sky_angles_prev_near_flat_value, near_flat_small].
  rewrite ground_sky_angles_next_value.
  unfold ground_sky_angles_next_general, ground_sky_angles_next_near_flat.
  cbn [fst]. rewrite tan_PI_minus.
  assert (Hq : 1 / - tan (1 / 2000) < 0).
  { rewrite Rdiv_opp_r. apply Ropp_lt_gt_0_contravar.
    apply Rdiv_lt_0_compat; lra. }
  rewrite !arctan2_neg_x by lra.
  intros Heq. apply Rplus_eq_reg_r, atan_inj in Heq.
  set (a := 1 / - tan (1 / 2000) - (1 - 0) * 1) in *.
  set (b := - ((1 - 0) * 1)) in *.
  assert (Ha : a <> 0) by (unfold a; lra).
  assert (Hb : b <> 0) by (unfold b; lra).
  assert (E : a = b).
  { replace a with (1 / (1 / a)) by (field; exact Ha).
    rewrite Heq. field. exact Hb. }
  unfold a, b in E.
  lra.
Qed.

(* ===================================================================== *)
(** ** The accumulation loops *)
(* ===================================================================== *)



Lemma while_rows_none limit body : limit <= 0 -> while_rows limit 0 body [] = [].
Proof.
  intros H. rewrite while_rows_equation_1.
  destruct (Rlt_dec 0 (limit - 0)); [lra | reflexivity].
Qed.

Lemma while_rows_once limit body :
  0 < limit <= 1 -> while_rows limit 0 body [] = [body 0].
Proof.
  intros H. rewrite while_rows_equation_1.
  destruct (Rlt_dec 0 (limit - 0)); [cbn | lra].
  rewrite while_rows_equation_1.
  destruct (Rlt_dec 0 (limit - (0 + 1))); [lra | reflexivity].
Qed.

Lemma f_z0_limit_near_flat gcr height tilt pitch :
  near_flat tilt = true ->
  value (f_z0_limit gcr height tilt pitch) = MAXROWS * height / pitch.
Proof. intros H. unfold f_z0_limit. now rewrite H. Qed.

Lemma f_z1_limit_near_flat gcr height tilt pitch :
  near_flat tilt = true ->
  value (f_z1_limit gcr height tilt pitch) = MAXROWS * height / pitch.
Proof. intros H. unfold f_z1_limit. now rewrite H. Qed.

Section Loops.

Variables gcr height tilt pitch : R.
Variable npoints : nat.

Local Abbreviation l :=
  (value (ground_sky_diffuse_view_factor_locals gcr height tilt pitch npoints)).

Lemma locals_fz0_limit :
  Locals.fz0_limit l = value (f_z0_limit gcr height tilt pitch).
Proof. reflexivity. Qed.

Lemma locals_fz1_limit :
  Locals.fz1_limit l = value (f_z1_limit gcr height tilt pitch).
Proof. reflexivity. Qed.

Lemma locals_fz0_sky_next :
  Locals.fz0_sky_next l
  = while_rows (Locals.fz0_limit l) 0
      (fun prev_row =>
         interp (map (fun z => z + prev_row) (Locals.fz l)) (Locals.fz l)
           (Locals.fz_sky_next l))
      [].
Proof. reflexivity. Qed.

Lemma locals_fz1_sky_prev :
  Locals.fz1_sky_prev l
  = while_rows (Locals.fz1_limit l) 0
      (fun next_row =>
         interp (map (fun z => z - next_row) (Locals.fz l)) (Locals.fz l)
           (Locals.fz_sky_prev l))
      [].
Proof. reflexivity. Qed.



End Loops.




Lemma near_flat_1_false : near_flat 1 = false.
Proof.
  pose proof PI_gt_2. unfold near_flat, EPS.
  apply Bool.orb_false_iff. split; apply Rltb_false; lra.
Qed.


(* ===================================================================== *)
(** ** The sampling grids *)
(* ===================================================================== *)

Lemma length_linspace a b n : length (linspace a b n) = n.
Proof. unfold linspace. now rewrite length_map, length_seq. Qed.

Lemma nth_linspace a b n i :
  (i < n)%nat ->
  nth i (linspace a b n) 0 = a + INR i * ((b - a) / INR (n - 1)).
Proof.
  intros Hi. unfold linspace.
  set (f := fun i : nat => a + INR i * ((b - a) / INR (n - 1))).
  rewrite (nth_indep _ 0 (f 0%nat)) by (now rewrite length_map, length_seq).
  rewrite (map_nth f), seq_nth by exact Hi. reflexivity.
Qed.

Lemma hd_linspace a b n : (1 <= n)%nat -> hd 0 (linspace a b n) = a.
Proof.
  intros Hn. destruct n as [|n]; [lia|].
  unfold linspace. cbn [seq map hd INR]. ring.
Qed.

Lemma last_nth_length (l : list R) :
  last l 0 = nth (length l - 1) l 0.
Proof.
  induction l as [|x [|y l] IH]; [reflexivity..|].
  change (last (x :: y :: l) 0) with (last (y :: l) 0).
  rewrite IH. cbn [length]. now rewrite !Nat.sub_succ, !Nat.sub_0_r.
Qed.

Lemma last_linspace a b n : (2 <= n)%nat -> last (linspace a b n) 0 = b.
Proof.
  intros Hn. rewrite last_nth_length, length_linspace, nth_linspace by lia.
  assert (INR (n - 1) <> 0) by (apply not_0_INR; lia).
  field. assumption.
Qed.

Lemma linspace_between a b n :
  a <= b -> Forall (fun z => a <= z <= b) (linspace a b n).
Proof.
  intros Hab. apply Forall_forall. intros z Hz.
  apply (In_nth _ _ 0) in Hz. destruct Hz as (i & Hi & <-).
  rewrite length_linspace in Hi. rewrite nth_linspace by exact Hi.
  destruct (Nat.eq_dec n 1) as [->|Hn].
  - assert (i = 0%nat) by lia. subst i. cbn [INR]. lra.
  - assert (Hpos : 0 < INR (n - 1)) by (apply lt_0_INR; lia).
    assert (Hle : INR i <= INR (n - 1)) by (apply le_INR; lia).
    pose proof (pos_INR i) as Hi0.
    assert (Hq : 0 <= INR i / INR (n - 1) <= 1).
    { split.
      - apply Rmult_le_pos; [exact Hi0 | left; now apply Rinv_0_lt_compat].
      - apply (Rmult_le_reg_r (INR (n - 1))); [exact Hpos|].
        replace (INR i / INR (n - 1) * INR (n - 1)) with (INR i)
          by (field; lra). lra. }
    replace (INR i * ((b - a) / INR (n - 1)))
      with (INR i / INR (n - 1) * (b - a)) by (field; lra).
    split; nra.
Qed.

Lemma length_interp x xp fp : length (interp x xp fp) = length x.
Proof. unfold interp. apply length_map. Qed.

Section Grids.

Variables gcr height tilt pitch : R.
Variable npoints : nat.

Local Abbreviation l :=
  (value (ground_sky_diffuse_view_factor_locals gcr height tilt pitch npoints)).

Lemma locals_fz :
  Locals.fz l
  = linspace (Rmin 0 (1 - Locals.fz1_limit l))
             (Rmax 1 (Locals.fz0_limit l)) (3 * npoints).
Proof.
  change (Locals.fz l)
    with (linspace
            (if Rltb 0 (1 - Locals.fz1_limit l) then 0
             else 1 - Locals.fz1_limit l)
            (if Rltb (Locals.fz0_limit l) 1 then 1 else Locals.fz0_limit l)
            (3 * npoints)).
  f_equal.
  - destruct (Rltb 0 (1 - Locals.fz1_limit l)) eqn:E.
    + apply Rltb_true in E. rewrite Rmin_left; lra.
    + apply Rltb_false in E. rewrite Rmin_right; lra.
  - destruct (Rltb (Locals.fz0_limit l) 1) eqn:E.
    + apply Rltb_true in E. rewrite Rmax_left; lra.
    + apply Rltb_false in E. rewrite Rmax_right; lra.
Qed.

Lemma locals_fz_row : Locals.fz_row l = linspace 0 1 npoints.
Proof. reflexivity. Qed.

Lemma locals_fz_sky :
  Locals.fz_sky l
  = add (add (map (fun psi => calc_fz_sky (fst psi) (snd psi))
                (Locals.psi_z l))
             (sum_axis0 (length (Locals.fz l)) (Locals.fz0_sky_next l)))
        (sum_axis0 (length (Locals.fz l)) (Locals.fz1_sky_prev l)).
Proof. reflexivity. Qed.

Lemma locals_returned :
  value (ground_sky_diffuse_view_factor gcr height tilt pitch npoints)
  = (Locals.fz_row l,
     interp (Locals.fz_row l) (Locals.fz l) (Locals.fz_sky l)).
Proof. reflexivity. Qed.

End Grids.

(* ===================================================================== *)
(** ** Fractions and view factors between 0 and 1 *)
(* ===================================================================== *)

(** The unshaded ground fraction is a fraction. *)
Lemma unshaded_ground_fraction_bounds gcr tilt tan_phi :
  0 <= gcr -> 0 <= unshaded_ground_fraction gcr tilt tan_phi <= 1.
Proof.
  intros Hg. unfold unshaded_ground_fraction.
  set (x := gcr * Rabs (cos tilt + sin tilt * tan_phi)).
  assert (Hx : 0 <= x)
    by (unfold x; apply Rmult_le_pos; [exact Hg | apply Rabs_pos]).
  pose proof (Rmin_l 1 x).
  assert (0 <= Rmin 1 x) by (apply Rmin_glb; lra).
  lra.
Qed.

(** The shade line is clamped, whatever the quotient inside it gives. *)
Lemma shade_line_bounds gcr tilt tan_phi :
  0 <= value (shade_line gcr tilt tan_phi) <= 1.
Proof.
  unfold shade_line. rewrite !value_bind. cbn [value ret fst].
  set (f_x := 1 - _).
  split; [apply Rmax_l|].
  apply Rmax_lub; [lra | apply Rmin_r].
Qed.

Lemma linspace_cons a b m :
  exists rest, linspace a b (S m) = a :: rest /\ length rest = m.
Proof.
  exists (map (fun i => a + INR i * ((b - a) / INR (S m - 1))) (seq 1 m)).
  split.
  - unfold linspace. cbn [seq map]. f_equal. cbn [INR]. ring.
  - now rewrite length_map, length_seq.
Qed.

Lemma interp1_first x y xp fp : interp1 x (x :: xp) (y :: fp) = y.
Proof.
  cbn [interp1].
  now replace (Rltb x x) with false by (symmetry; apply Rltb_false; lra).
Qed.

Section ProfileHead.

Variables gcr height tilt pitch : R.
Variable npoints : nat.

Local Abbreviation l :=
  (value (ground_sky_diffuse_view_factor_locals gcr height tilt pitch npoints)).

Lemma locals_psi_z :
  Locals.psi_z l
  = map (fun z => value (ground_sky_angles z gcr height tilt pitch))
      (Locals.fz l).
Proof. apply value_mapM. Qed.

Lemma locals_fz_sky_next :
  Locals.fz_sky_next l
  = map (fun z =>
           let psi := value (ground_sky_angles_prev z gcr height tilt pitch)
           in calc_fz_sky (fst psi) (snd psi))
      (Locals.fz l).
Proof.
  change (Locals.fz_sky_next l)
    with (map (fun psi => calc_fz_sky (fst psi) (snd psi))
            (value (mapM (fun z => ground_sky_angles_prev z gcr height tilt
                                     pitch) (Locals.fz l)))).
  rewrite value_mapM, map_map. reflexivity.
Qed.

Lemma locals_fz_sky_prev :
  Locals.fz_sky_prev l
  = map (fun z =>
           let psi := value (ground_sky_angles_next z gcr height tilt pitch)
           in calc_fz_sky (fst psi) (snd psi))
      (Locals.fz l).
Proof.
  change (Locals.fz_sky_prev l)
    with (map (fun psi => calc_fz_sky (fst psi) (snd psi))
            (value (mapM (fun z => ground_sky_angles_next z gcr height tilt
                                     pitch) (Locals.fz l)))).
  rewrite value_mapM, map_map. reflexivity.
Qed.

End ProfileHead.

Lemma length_add a : forall b,
  length a = length b -> length (add a b) = length a.
Proof.
  induction a as [|x a IH]; intros [|y b] H; cbn in *; try congruence.
  f_equal. apply IH. congruence.
Qed.

Lemma length_sum_axis0 n rows :
  Forall (fun r => length r = n) rows -> length (sum_axis0 n rows) = n.
Proof.
  unfold sum_axis0.
  assert (G : forall acc, length acc = n ->
                Forall (fun r => length r = n) rows ->
                length (fold_left add rows acc) = n).
  { induction rows as [|r rows IH]; intros acc Hacc Hrows; [exact Hacc|].
    inversion Hrows; subst. cbn [fold_left]. apply IH; [|assumption].
    rewrite length_add; congruence. }
  intros H. apply G; [apply repeat_length | exact H].
Qed.

(** Every row a loop appends has the shape the body gives it. *)
Lemma while_rows_Forall (P : list R -> Prop) limit row body rows :
  (forall r, P (body r)) -> Forall P rows ->
  Forall P (while_rows limit row body rows).
Proof.
  intros Hbody. funelim (while_rows limit row body rows); intros Hrows.
  - apply H; [exact Hbody|]. apply Forall_app. split; [exact Hrows|].
    constructor; [apply Hbody | constructor].
  - exact Hrows.
Qed.

Lemma nth_interp i x xp fp :
  (i < length x)%nat ->
  nth i (interp x xp fp) 0 = interp1 (nth i x 0) xp fp.
Proof.
  intros Hi. unfold interp.
  set (f := fun xi : R => interp1 xi xp fp).
  rewrite (nth_indep _ 0 (f 0)) by (now rewrite length_map).
  apply (map_nth f).
Qed.

(** C9: on a valid configuration with npoints >= 2 the working grid is the
    3*npoints-point uniform grid from min(0, 1 - f_z1_limit) to
    max(1, f_z0_limit); the summed profile on it is, point by point, the
    view factor of the current row (ground_sky_angles) plus the rows the
    forward loop builds from ground_sky_angles_prev plus the rows the
    backward loop builds from ground_sky_angles_next, and has 3*npoints
    values; the function returns the npoints-point uniform grid from 0 to 1
    together with the linear interpolation of that summed profile at those
    npoints abscissae. *)
Theorem ground_sky_diffuse_view_factor_grids
  (gcr height tilt pitch : R) (npoints : nat) :
  valid_config gcr height tilt pitch -> (2 <= npoints)%nat ->
  let l :=
    value (ground_sky_diffuse_view_factor_locals gcr height tilt pitch npoints)
  in
  let out := value (ground_sky_diffuse_view_factor gcr height tilt pitch npoints)
  in
  let fz0 := value (f_z0_limit gcr height tilt pitch) in
  let fz1 := value (f_z1_limit gcr height tilt pitch) in
  let lo := Rmin 0 (1 - fz1) in
  let hi := Rmax 1 fz0 in
  let fz := linspace lo hi (3 * npoints) in
  let current :=
    map (fun z =>
           let psi := value (ground_sky_angles z gcr height tilt pitch) in
           calc_fz_sky (fst psi) (snd psi)) fz in
  let ahead :=
    map (fun z =>
           let psi := value (ground_sky_angles_prev z gcr height tilt pitch) in
           calc_fz_sky (fst psi) (snd psi)) fz in
  let behind :=
    map (fun z =>
           let psi := value (ground_sky_angles_next z gcr height tilt pitch) in
           calc_fz_sky (fst psi) (snd psi)) fz in
  let rows_ahead :=
    while_rows fz0 0
      (fun row => interp (map (fun z => z + row) fz) fz ahead) [] in
  let rows_behind :=
    while_rows fz1 0
      (fun row => interp (map (fun z => z - row) fz) fz behind) [] in
  let summed :=
    add (add current (sum_axis0 (3 * npoints) rows_ahead))
        (sum_axis0 (3 * npoints) rows_behind) in
  Locals.fz l = fz /\
  (length fz = 3 * npoints)%nat /\
  hd 0 fz = lo /\ last fz 0 = hi /\
  Forall (fun z => lo <= z <= hi) fz /\
  Locals.fz_sky l = summed /\
  (length summed = 3 * npoints)%nat /\
  Forall (fun r => length r = (3 * npoints)%nat) rows_ahead /\
  Forall (fun r => length r = (3 * npoints)%nat) rows_behind /\
  out = (linspace 0 1 npoints, interp (linspace 0 1 npoints) fz summed) /\
  length (fst out) = npoints /\
  hd 0 (fst out) = 0 /\ last (fst out) 0 = 1 /\
  Forall (fun z => 0 <= z <= 1) (fst out) /\
  length (snd out) = npoints /\
  (forall i, (i < npoints)%nat ->
             nth i (snd out) 0 = interp1 (nth i (fst out) 0) fz summed).
Proof.
  intros _ Hn l out fz0 fz1 lo hi fz current ahead behind rows_ahead
    rows_behind summed.
  assert (Hlo : lo <= 0) by apply Rmin_l.
  assert (Hhi : 1 <= hi) by apply Rmax_l.
  assert (Hfz : Locals.fz l = fz) by apply locals_fz.
  assert (Hlen : length fz = (3 * npoints)%nat) by apply length_linspace.
  assert (Hsum : Locals.fz_sky l = summed).
  { unfold l. rewrite locals_fz_sky, locals_psi_z, map_map.
    rewrite locals_fz0_sky_next, locals_fz1_sky_prev.
    rewrite locals_fz_sky_next, locals_fz_sky_prev.
    fold l. rewrite !Hfz, Hlen. reflexivity. }
  assert (Hra : Forall (fun r => length r = (3 * npoints)%nat) rows_ahead).
  { apply while_rows_Forall; [|constructor].
    intros r. now rewrite length_interp, length_map. }
  assert (Hrb : Forall (fun r => length r = (3 * npoints)%nat) rows_behind).
  { apply while_rows_Forall; [|constructor].
    intros r. now rewrite length_interp, length_map. }
  assert (Hls : length summed = (3 * npoints)%nat).
  { unfold summed.
    assert (Hc : length current = (3 * npoints)%nat)
      by (unfold current; now rewrite length_map).
    assert (Ha : length (sum_axis0 (3 * npoints) rows_ahead)
                 = (3 * npoints)%nat) by (apply length_sum_axis0; exact Hra).
    assert (Hb : length (sum_axis0 (3 * npoints) rows_behind)
                 = (3 * npoints)%nat) by (apply length_sum_axis0; exact Hrb).
    assert (Hcs : length (add current (sum_axis0 (3 * npoints) rows_ahead))
                  = (3 * npoints)%nat)
      by (rewrite length_add; congruence).
    rewrite length_add; congruence. }
  assert (Hout : out = (linspace 0 1 npoints,
                        interp (linspace 0 1 npoints) fz summed)).
  { unfold out. rewrite locals_returned, locals_fz_row.
    fold l. now rewrite Hfz, Hsum. }
  split; [exact Hfz|]. split; [exact Hlen|].
  split; [apply hd_linspace; lia|]. split; [apply last_linspace; lia|].
  split; [apply linspace_between; lra|].
  split; [exact Hsum|]. split; [exact Hls|].
  split; [exact Hra|]. split; [exact Hrb|].
  split; [exact Hout|]. rewrite Hout. cbn [fst snd].
  rewrite length_interp, length_linspace.
  split; [reflexivity|].
  split; [apply hd_linspace; lia|]. split; [apply last_linspace; lia|].
  split; [apply linspace_between; lra|]. split; [reflexivity|].
  intros i Hi. apply nth_interp. now rewrite length_linspace.
Qed.

Lemma ground_sky_diffuse_view_factor_grids_witness :
  let l := value (ground_sky_diffuse_view_factor_locals (1 / 2) 1 1 2 100) in
  let out := value (ground_sky_diffuse_view_factor (1 / 2) 1 1 2 100) in
  (length (Locals.fz l) = 300)%nat /\
  (length (Locals.fz_sky l) = 300)%nat /\
  length (fst out) = 100%nat /\ length (snd out) = 100%nat.
Proof.
  assert (H : (2 <= 100)%nat) by lia.
  assert (Hv : valid_config (1 / 2) 1 1 2)
    by (pose proof PI_gt_2; unfold valid_config; lra).
  pose proof (ground_sky_diffuse_view_factor_grids (1 / 2) 1 1 2 100 Hv H)
    as G.
  cbv zeta in G.
  destruct G as (G1 & G2 & _ & _ & _ & G3 & G4 & _ & _ & _ & G5 & _ & _ & _
                 & G6 & _).
  cbv zeta. rewrite G1, G3.
  split; [exact G2|]. split; [exact G4|]. split; assumption.
Defined.

Section NearFlatProfile.

Variables gcr height tilt pitch : R.
Variable npoints : nat.

(** Near flat, with limits in (0, 1], each loop runs once with a zero
    shift and the first point of the returned profile is the sum of the
    three view factors at f_z = 0. *)
Lemma near_flat_profile_head :
  (1 <= npoints)%nat -> near_flat tilt = true ->
  0 < MAXROWS * height / pitch <= 1 ->
  let prev := ground_sky_angles_prev_near_flat 0 gcr height tilt pitch in
  let next := ground_sky_angles_next_general 0 gcr height tilt pitch in
  exists rest,
    snd (value (ground_sky_diffuse_view_factor gcr height tilt pitch npoints))
    = (calc_fz_sky 0 0
       + (0 + calc_fz_sky (fst prev) (snd prev))
       + (0 + calc_fz_sky (fst next) (snd next))) :: rest.
Proof.
  intros Hn Hnf Hlim prev next.
  rewrite locals_returned. cbn [snd].
  rewrite locals_fz_row, locals_fz_sky, locals_psi_z.
  rewrite locals_fz0_sky_next, locals_fz1_sky_prev.
  rewrite locals_fz_sky_next, locals_fz_sky_prev.
  rewrite locals_fz, locals_fz0_limit, locals_fz1_limit.
  rewrite f_z0_limit_near_flat, f_z1_limit_near_flat by exact Hnf.
  rewrite !while_rows_once by exact Hlim.
  rewrite Rmin_left, Rmax_left by lra.
  destruct npoints as [|m]; [lia|].
  replace (3 * S m)%nat with (S (3 * m + 2)) by lia.
  destruct (linspace_cons 0 1 (3 * m + 2)) as (grid & -> & _).
  destruct (linspace_cons 0 1 m) as (row & -> & _).
  cbn [map interp length repeat sum_axis0 fold_left add].
  rewrite Rplus_0_r, Rminus_0_r, !interp1_first.
  rewrite ground_sky_angles_near_flat by exact Hnf.
  rewrite ground_sky_angles_prev_near_flat_value by exact Hnf.
  rewrite ground_sky_angles_next_value.
  cbv zeta. cbn [value fst snd]. eexists. reflexivity.
Qed.

End NearFlatProfile.

(** C1 at gcr = 1/2, height = 1/15, tilt = 1/2000, pitch = 1 and the
    default npoints = 100, a valid configuration on which no quotient has a
    zero divisor: the first point of the returned ground-to-sky profile is
    greater than 1.  (The two fractions of the claim do stay in [0,1]:
    [unshaded_ground_fraction_bounds], [shade_line_bounds].) *)
Theorem near_flat_view_factor_exceeds_one :
  valid_config (1 / 2) (1 / 15) (1 / 2000) 1 /\
  exists v rest,
    snd (value (ground_sky_diffuse_view_factor (1 / 2) (1 / 15) (1 / 2000) 1
                  100)) = v :: rest /\
    1 < v.
Proof.
  pose proof PI_gt_2 as Hpi.
  split; [unfold valid_config; lra|].
  destruct (near_flat_profile_head (1 / 2) (1 / 15) (1 / 2000) 1 100)
    as [rest Hrest].
  { lia. } { apply near_flat_small. } { unfold MAXROWS. lra. }
  cbv zeta in Hrest. eexists. exists rest. split; [exact Hrest|].
  unfold ground_sky_angles_prev_near_flat, ground_sky_angles_next_general.
  cbn [fst snd]. unfold calc_fz_sky. rewrite cos_0.
  (* sine and cosine of the tilt *)
  assert (Hs : 0 < sin (1 / 2000) < 1 / 2000).
  { split; [apply sin_gt_0; lra | apply sin_lt_x; lra]. }
  assert (Hc : 1 / 2 < cos (1 / 2000) <= 1).
  { pose proof (sin2_cos2 (1 / 2000)) as H2. unfold Rsqr in H2.
    assert (0 < cos (1 / 2000)) by (apply cos_gt_0; lra).
    pose proof (COS_bound (1 / 2000)). split; nra. }
  (* previous row, bottom edge: straight up *)
  replace (- (0 * 1)) with 0 by ring.
  rewrite arctan2_zero_x, cos_PI2 by lra.
  (* previous row, top edge *)
  rewrite sin_PI_x, cos_PI_minus.
  set (y := 1 / 2 * sin (1 / 2000) + 1 / 15 / 1).
  set (x := 1 + 0 + 1 / 2 * - cos (1 / 2000)).
  assert (Hy : 0 < y <= 17 / 30) by (unfold y; lra).
  assert (Hx : 1 / 2 <= x) by (unfold x; lra).
  assert (Hp0 : 1 / 2 < cos (arctan2 y x)).
  { rewrite arctan2_pos_x by lra. apply cos_atan_gt_half.
    assert (Hu : 0 <= y / x <= 17 / 15).
    { split.
      - apply Rmult_le_pos; [lra | left; apply Rinv_0_lt_compat; lra].
      - apply (Rmult_le_reg_r x); [lra|].
        replace (y / x * x) with y by (field; lra). nra. }
    nra. }
  (* next row, top edge *)
  set (gp := 1 / 2 + 1 / 15 / sin (1 / 2000) / 1).
  assert (Hgp : 0 < gp).
  { unfold gp. assert (0 < 1 / 15 / sin (1 / 2000) / 1).
    { unfold Rdiv. repeat apply Rmult_lt_0_compat; try lra;
        apply Rinv_0_lt_compat; lra. }
    lra. }
  set (x1 := (1 + (1 - 0)) / gp + cos (1 / 2000)).
  assert (Hx1 : 1 / 2 < x1).
  { unfold x1. assert (0 < (1 + (1 - 0)) / gp)
      by (apply Rdiv_lt_0_compat; lra). lra. }
  assert (Hn1 : 1 / 2 < cos (arctan2 (sin (1 / 2000)) x1)).
  { rewrite arctan2_pos_x by lra. apply cos_atan_gt_half.
    assert (Hu : 0 <= sin (1 / 2000) / x1 <= 1).
    { split.
      - apply Rmult_le_pos; [lra | left; apply Rinv_0_lt_compat; lra].
      - apply (Rmult_le_reg_r x1); [lra|].
        replace (sin (1 / 2000) / x1 * x1) with (sin (1 / 2000))
          by (field; lra). lra. }
    nra. }
  (* next row, bottom edge: any angle *)
  pose proof (COS_bound
                (arctan2 (1 / 15)
                   (1 / 15 / tan (PI - 1 / 2000) - (1 - 0) * 1))) as Hn0.
  lra.
Qed.

(* ===================================================================== *)
(** ** Shading of the ground and of the module *)
(* ===================================================================== *)

(** X1: for a non-negative gcr the unshaded ground fraction lies in [0,1],
    whatever the tilt and the projection tangent. *)
Theorem unshaded_ground_fraction_is_fraction (gcr tilt tan_phi : R) :
  0 <= gcr -> 0 <= unshaded_ground_fraction gcr tilt tan_phi <= 1.
Proof. apply unshaded_ground_fraction_bounds. Qed.

Lemma unshaded_ground_fraction_is_fraction_witness :
  0 <= unshaded_ground_fraction (2 / 5) 1 3 <= 1.
Proof. apply (unshaded_ground_fraction_is_fraction (2 / 5) 1 3). lra. Defined.

(** X2: for a non-zero gcr (so that 1.0/gcr is defined) the shade line
    lies in [0,1] for every tilt and projection tangent. *)
Theorem shade_line_is_fraction (gcr tilt tan_phi : R) :
  gcr <> 0 -> 0 <= value (shade_line gcr tilt tan_phi) <= 1.
Proof. intros _. apply shade_line_bounds. Qed.

Lemma shade_line_is_fraction_witness :
  0 <= value (shade_line (2 / 5) 1 3) <= 1.
Proof. apply (shade_line_is_fraction (2 / 5) 1 3). lra. Defined.

Lemma shade_line_value gcr tilt tan_phi :
  value (shade_line gcr tilt tan_phi)
  = Rmax 0 (Rmin (1 - 1 / gcr / (cos tilt + sin tilt * tan_phi)) 1).
Proof. reflexivity. Qed.

Lemma shade_line_divisors gcr tilt tan_phi :
  divisors (shade_line gcr tilt tan_phi)
  = [gcr; cos tilt + sin tilt * tan_phi].
Proof. reflexivity. Qed.

(** X3: with the sun in front of the module (cos(tilt) + sin(tilt)*tan_phi
    positive) and gcr > 0, the module is shaded exactly when
    gcr*(cos(tilt) + sin(tilt)*tan_phi) > 1, and then no ground is left
    unshaded; conversely, while some ground is unshaded the shade line is 0. *)
Theorem shade_line_sun_in_front (gcr tilt tan_phi : R) :
  0 < gcr -> 0 < cos tilt + sin tilt * tan_phi ->
  let proj := cos tilt + sin tilt * tan_phi in
  div_safe (shade_line gcr tilt tan_phi) /\
  value (shade_line gcr tilt tan_phi) = Rmax 0 (1 - 1 / (gcr * proj)) /\
  (0 < value (shade_line gcr tilt tan_phi) <-> 1 < gcr * proj) /\
  (0 < value (shade_line gcr tilt tan_phi) ->
   unshaded_ground_fraction gcr tilt tan_phi = 0) /\
  (0 < unshaded_ground_fraction gcr tilt tan_phi ->
   value (shade_line gcr tilt tan_phi) = 0).
Proof.
  intros Hg Hp proj. fold proj in Hp.
  assert (Hgp : 0 < gcr * proj) by (apply Rmult_lt_0_compat; assumption).
  assert (Hq : 1 / gcr / proj = 1 / (gcr * proj)) by (field; lra).
  assert (Hinv : 0 < 1 / (gcr * proj)) by (apply Rdiv_lt_0_compat; lra).
  assert (Hv : value (shade_line gcr tilt tan_phi)
               = Rmax 0 (1 - 1 / (gcr * proj))).
  { rewrite shade_line_value. fold proj. rewrite Hq.
    rewrite Rmin_left by lra. reflexivity. }
  assert (Hiff : 0 < 1 - 1 / (gcr * proj) <-> 1 < gcr * proj).
  { split; intros H.
    - apply (Rmult_lt_compat_r (gcr * proj)) in H; [|exact Hgp].
      replace ((1 - 1 / (gcr * proj)) * (gcr * proj)) with (gcr * proj - 1)
        in H by (field; lra). lra.
    - assert (1 / (gcr * proj) < 1).
      { apply (Rmult_lt_reg_r (gcr * proj)); [exact Hgp|].
        replace (1 / (gcr * proj) * (gcr * proj)) with 1 by (field; lra).
        lra. }
      lra. }
  assert (Hshade : 0 < value (shade_line gcr tilt tan_phi)
                   <-> 1 < gcr * proj).
  { rewrite Hv, <- Hiff. split; intros H.
    - destruct (Rle_dec 0 (1 - 1 / (gcr * proj))) as [L|L].
      + rewrite Rmax_right in H; assumption.
      + rewrite Rmax_left in H; lra.
    - rewrite Rmax_right; lra. }
  assert (Hu : unshaded_ground_fraction gcr tilt tan_phi
               = 1 - Rmin 1 (gcr * proj)).
  { unfold unshaded_ground_fraction. fold proj.
    rewrite (Rabs_right proj) by lra. reflexivity. }
  split.
  { unfold div_safe. rewrite shade_line_divisors. fold proj.
    repeat constructor; lra. }
  split; [exact Hv|]. split; [exact Hshade|]. split.
  - intros H. apply Hshade in H. rewrite Hu, Rmin_left; lra.
  - intros H. rewrite Hu in H.
    assert (gcr * proj < 1).
    { destruct (Rle_dec 1 (gcr * proj)) as [L|L]; [|lra].
      rewrite Rmin_left in H; lra. }
    rewrite Hv, Rmax_left; [reflexivity|].
    assert (~ 0 < 1 - 1 / (gcr * proj)) by (rewrite Hiff; lra). lra.
Qed.

Lemma shade_line_sun_in_front_witness :
  let proj := cos 0 + sin 0 * 1 in
  div_safe (shade_line (1 / 2) 0 1) /\
  value (shade_line (1 / 2) 0 1) = Rmax 0 (1 - 1 / (1 / 2 * proj)) /\
  (0 < value (shade_line (1 / 2) 0 1) <-> 1 < 1 / 2 * proj) /\
  (0 < value (shade_line (1 / 2) 0 1) ->
   unshaded_ground_fraction (1 / 2) 0 1 = 0) /\
  (0 < unshaded_ground_fraction (1 / 2) 0 1 ->
   value (shade_line (1 / 2) 0 1) = 0).
Proof.
  apply (shade_line_sun_in_front (1 / 2) 0 1).
  - lra.
  - rewrite cos_0, sin_0. lra.
Defined.

(** X4: with the sun behind the module (cos(tilt) + sin(tilt)*tan_phi
    negative) and gcr > 0 the shade line is 1: the whole module is shaded,
    and no direct irradiance reaches it. *)
Theorem shade_line_sun_behind (gcr tilt tan_phi poa_direct iam : R) :
  0 < gcr -> cos tilt + sin tilt * tan_phi < 0 ->
  div_safe (shade_line gcr tilt tan_phi) /\
  value (shade_line gcr tilt tan_phi) = 1 /\
  poa_direct_pv poa_direct iam (value (shade_line gcr tilt tan_phi)) = 0.
Proof.
  intros Hg Hp.
  set (proj := cos tilt + sin tilt * tan_phi) in *.
  assert (Hv : value (shade_line gcr tilt tan_phi) = 1).
  { rewrite shade_line_value. fold proj.
    assert (Hq : 1 / gcr / proj < 0).
    { replace (1 / gcr / proj) with (- (1 / (gcr * - proj))) by (field; lra).
      apply Ropp_lt_gt_0_contravar. apply Rdiv_lt_0_compat; nra. }
    rewrite Rmin_right by lra. rewrite Rmax_right; lra. }
  split.
  { unfold div_safe. rewrite shade_line_divisors. fold proj.
    repeat constructor; lra. }
  split; [exact Hv|].
  rewrite Hv. unfold poa_direct_pv. ring.
Qed.

Lemma shade_line_sun_behind_witness :
  div_safe (shade_line (1 / 2) PI 0) /\
  value (shade_line (1 / 2) PI 0) = 1 /\
  poa_direct_pv 900 1 (value (shade_line (1 / 2) PI 0)) = 0.
Proof.
  apply (shade_line_sun_behind (1 / 2) PI 0 900 1).
  - lra.
  - rewrite cos_PI, sin_PI. lra.
Defined.

(* ===================================================================== *)
(** ** The solar projection *)
(* ===================================================================== *)

Lemma tan_plus_PI x : cos x <> 0 -> tan (x + PI) = tan x.
Proof. intros H. unfold tan. rewrite neg_sin, neg_cos. field. exact H. Qed.

Lemma tan_minus_PI x : cos x <> 0 -> tan (x - PI) = tan x.
Proof.
  intros H. unfold tan.
  rewrite sin_minus, cos_minus, sin_PI, cos_PI. field. lra.
Qed.

Lemma cos_atan_neq_0 u : cos (atan u) <> 0.
Proof.
  pose proof (atan_bound u). apply Rgt_not_eq. apply cos_gt_0; lra.
Qed.

Lemma tan_arctan2 y x : x <> 0 -> tan (arctan2 y x) = y / x.
Proof.
  intros Hx. unfold arctan2.
  destruct (Rltb 0 x) eqn:E0; [apply tan_atan|].
  apply Rltb_false in E0.
  assert (Hneg : Rltb x 0 = true) by (apply Rltb_true; lra).
  rewrite Hneg.
  destruct (Rltb y 0).
  - rewrite tan_minus_PI by apply cos_atan_neq_0. apply tan_atan.
  - rewrite tan_plus_PI by apply cos_atan_neq_0. apply tan_atan.
Qed.

(** X5: [solar_projection] and [solar_projection_tangent] give the same
    tangent for every input; the one quotient of [solar_projection] has
    the divisor cos(zenith); when that is non-zero the tangent of the
    returned angle phi is the returned tan_phi, also for a sun below the
    horizon; and when the sun is above the horizon (cos(zenith) > 0) phi
    lies strictly between -pi/2 and pi/2. *)
Theorem solar_projection_agrees (solar_zenith solar_azimuth system_azimuth : R) :
  let r := solar_projection solar_zenith solar_azimuth system_azimuth in
  snd (value r)
  = solar_projection_tangent solar_zenith solar_azimuth system_azimuth /\
  divisors r = [cos solar_zenith] /\
  (cos solar_zenith <> 0 ->
   div_safe r /\ tan (fst (value r)) = snd (value r)) /\
  (0 < cos solar_zenith -> - (PI / 2) < fst (value r) < PI / 2).
Proof.
  intros r. unfold r, solar_projection.
  rewrite !value_bind. cbn [value div ret fst snd].
  split; [unfold solar_projection_tangent, tan, Rdiv; ring|].
  split; [reflexivity|]. split.
  - intros Hc. split; [repeat constructor; exact Hc|].
    apply tan_arctan2. exact Hc.
  - intros Hc. rewrite arctan2_pos_x by exact Hc.
    match goal with |- _ < atan ?u < _ => pose proof (atan_bound u) end. lra.
Qed.

Lemma solar_projection_agrees_witness :
  let r := solar_projection 3 1 2 in
  (div_safe r /\ tan (fst (value r)) = snd (value r)) /\
  - (PI / 2) < fst (value (solar_projection 0 1 2)) < PI / 2.
Proof.
  pose proof PI_gt_2 as Hpi. pose proof PI_4 as Hpi4.
  assert (H3 : cos 3 <> 0) by (apply Rlt_not_eq; apply cos_lt_0; lra).
  assert (H0 : 0 < cos 0) by (rewrite cos_0; lra).
  split.
  - exact (proj1 (proj2 (proj2 (solar_projection_agrees 3 1 2))) H3).
  - exact (proj2 (proj2 (proj2 (solar_projection_agrees 0 1 2))) H0).
Defined.

(* ===================================================================== *)
(** ** Visibility limits and the symmetries of the ground angles *)
(* ===================================================================== *)

Lemma near_flat_false tilt :
  near_flat tilt = false <-> EPS <= tilt <= PI - EPS.
Proof.
  unfold near_flat. rewrite Bool.orb_false_iff, !Rltb_false. tauto.
Qed.

Lemma not_near_flat_open tilt : near_flat tilt = false -> 0 < tilt < PI.
Proof. intros H. apply near_flat_false in H. unfold EPS in H. lra. Qed.

Lemma cos_open_lt_1 tilt : 0 < tilt < PI -> -1 < cos tilt < 1.
Proof.
  intros H. pose proof (sin_pos_open tilt H) as Hs.
  pose proof (sin2_cos2 tilt) as H2. unfold Rsqr in H2.
  split; nra.
Qed.

Lemma f_z0_limit_general_divisors gcr height tilt pitch :
  near_flat tilt = false ->
  divisors (f_z0_limit gcr height tilt pitch)
  = [gcr; 1 / gcr - (1 - 0) * cos tilt; pitch; tan tilt;
     (1 - 0) * sin tilt / (1 / gcr - (1 - 0) * cos tilt)].
Proof. intros H. unfold f_z0_limit. rewrite H. reflexivity. Qed.

Lemma f_z1_limit_general_divisors gcr height tilt pitch :
  near_flat tilt = false ->
  divisors (f_z1_limit gcr height tilt pitch)
  = [gcr; 1 / gcr - (1 - 0) * cos (PI - tilt); pitch;
     (1 - 0) * sin (PI - tilt) / (1 / gcr - (1 - 0) * cos (PI - tilt));
     tan tilt].
Proof. intros H. unfold f_z1_limit. rewrite H. reflexivity. Qed.

Lemma f_z0_limit_general_value gcr height tilt pitch :
  near_flat tilt = false ->
  value (f_z0_limit gcr height tilt pitch)
  = height / pitch
    * (1 / tan tilt
       + 1 / ((1 - 0) * sin tilt / (1 / gcr - (1 - 0) * cos tilt))).
Proof. intros H. unfold f_z0_limit. rewrite H. reflexivity. Qed.

Lemma f_z1_limit_general_value gcr height tilt pitch :
  near_flat tilt = false ->
  value (f_z1_limit gcr height tilt pitch)
  = height / pitch
    * (1 / ((1 - 0) * sin (PI - tilt) / (1 / gcr - (1 - 0) * cos (PI - tilt)))
       - 1 / tan tilt).
Proof. intros H. unfold f_z1_limit. rewrite H. reflexivity. Qed.

(** X6: away from the near-flat range and from tilt = pi/2, on a valid
    configuration the two visibility limits are computed without a zero
    divisor, and as real numbers both equal height/(pitch*gcr*sin(tilt)),
    which is not negative.  (The two source expressions differ, so in
    floating point they may round differently.) *)
Theorem visibility_limits_coincide (gcr height tilt pitch : R) :
  valid_config gcr height tilt pitch -> near_flat tilt = false ->
  cos tilt <> 0 ->
  div_safe (f_z0_limit gcr height tilt pitch) /\
  div_safe (f_z1_limit gcr height tilt pitch) /\
  value (f_z0_limit gcr height tilt pitch)
  = height / (pitch * gcr * sin tilt) /\
  value (f_z1_limit gcr height tilt pitch)
  = height / (pitch * gcr * sin tilt) /\
  0 <= height / (pitch * gcr * sin tilt).
Proof.
  intros (Hg & Hh & Ht & Hp) Hnf Hcos.
  pose proof (not_near_flat_open tilt Hnf) as Hopen.
  pose proof (sin_pos_open tilt Hopen) as Hsin.
  pose proof (cos_open_lt_1 tilt Hopen) as Hc.
  assert (Hig : 1 <= 1 / gcr).
  { apply (Rmult_le_reg_r gcr); [lra|].
    replace (1 / gcr * gcr) with 1 by (field; lra). lra. }
  assert (Htan : tan tilt <> 0) by (apply tan_neq_0; lra).
  assert (Hd0 : 1 / gcr - (1 - 0) * cos tilt <> 0) by lra.
  assert (Hd1 : 1 / gcr - (1 - 0) * cos (PI - tilt) <> 0)
    by (rewrite cos_PI_minus; lra).
  assert (Hs0 : (1 - 0) * sin tilt / (1 / gcr - (1 - 0) * cos tilt) <> 0).
  { unfold Rdiv. apply Rmult_integral_contrapositive_currified; [lra|].
    apply Rinv_neq_0_compat. exact Hd0. }
  assert (Hs1 : (1 - 0) * sin (PI - tilt)
                / (1 / gcr - (1 - 0) * cos (PI - tilt)) <> 0).
  { unfold Rdiv. apply Rmult_integral_contrapositive_currified;
      [rewrite sin_PI_x; lra|].
    apply Rinv_neq_0_compat. exact Hd1. }
  assert (H0 : value (f_z0_limit gcr height tilt pitch)
               = height / (pitch * gcr * sin tilt)).
  { rewrite f_z0_limit_general_value by exact Hnf.
    unfold tan. field. repeat split; try lra; nra. }
  assert (H1 : value (f_z1_limit gcr height tilt pitch)
               = height / (pitch * gcr * sin tilt)).
  { rewrite f_z1_limit_general_value by exact Hnf.
    rewrite sin_PI_x, cos_PI_minus in *.
    unfold tan. field. repeat split; try lra; nra. }
  split.
  { unfold div_safe. rewrite f_z0_limit_general_divisors by exact Hnf.
    repeat constructor; try lra; assumption. }
  split.
  { unfold div_safe. rewrite f_z1_limit_general_divisors by exact Hnf.
    repeat constructor; try lra; assumption. }
  split; [exact H0|]. split; [exact H1|].
  apply Rmult_le_pos; [exact Hh|].
  left. apply Rinv_0_lt_compat.
  repeat apply Rmult_lt_0_compat; lra.
Qed.

Lemma visibility_limits_coincide_witness :
  div_safe (f_z0_limit (1 / 2) 1 1 2) /\
  div_safe (f_z1_limit (1 / 2) 1 1 2) /\
  value (f_z0_limit (1 / 2) 1 1 2) = 1 / (2 * (1 / 2) * sin 1) /\
  value (f_z1_limit (1 / 2) 1 1 2) = 1 / (2 * (1 / 2) * sin 1) /\
  0 <= 1 / (2 * (1 / 2) * sin 1).
Proof.
  pose proof PI_gt_2 as Hpi.
  apply (visibility_limits_coincide (1 / 2) 1 1 2).
  - unfold valid_config. lra.
  - apply near_flat_1_false.
  - apply Rgt_not_eq. apply cos_gt_0; lra.
Defined.

Lemma near_flat_mirror tilt : near_flat (PI - tilt) = near_flat tilt.
Proof.
  unfold near_flat.
  destruct (Rltb (PI - tilt) EPS) eqn:A, (Rltb (PI - EPS) (PI - tilt)) eqn:B,
    (Rltb tilt EPS) eqn:C, (Rltb (PI - EPS) tilt) eqn:E;
    try reflexivity;
    repeat match goal with
      | H : Rltb _ _ = true |- _ => apply Rltb_true in H
      | H : Rltb _ _ = false |- _ => apply Rltb_false in H
      end; lra.
Qed.

Lemma PI_minus_PI_minus x : PI - (PI - x) = x.
Proof. ring. Qed.

(** X7: the current-row angles are mirror images under the back-side
    transform: at the mirrored ground point 1 - f_z and tilt pi - tilt the
    two angles are those of f_z and tilt, exchanged; so the current-row
    view factor is the same. *)
Theorem ground_sky_angles_mirror (f_z gcr height tilt pitch : R) :
  let front := value (ground_sky_angles f_z gcr height tilt pitch) in
  let back := value (ground_sky_angles (1 - f_z) gcr height (PI - tilt) pitch)
  in
  back = (snd front, fst front) /\
  calc_fz_sky (fst back) (snd back) = calc_fz_sky (fst front) (snd front).
Proof.
  cbv zeta.
  assert (E : value (ground_sky_angles (1 - f_z) gcr height (PI - tilt) pitch)
              = (snd (value (ground_sky_angles f_z gcr height tilt pitch)),
                 fst (value (ground_sky_angles f_z gcr height tilt pitch)))).
  { unfold ground_sky_angles. rewrite near_flat_mirror.
    destruct (near_flat tilt); [reflexivity|].
    rewrite !value_bind. cbn [value ret div fst snd _gcr_prime bind].
    rewrite !PI_minus_PI_minus, sin_PI_x.
    replace (1 - (1 - f_z)) with f_z by ring. reflexivity. }
  split; [exact E|].
  rewrite E. cbn [fst snd]. unfold calc_fz_sky. f_equal. ring.
Qed.

(** X8: the two visibility limits are mirror images of each other under
    tilt -> pi - tilt, for every input. *)
Theorem visibility_limits_mirror (gcr height tilt pitch : R) :
  value (f_z1_limit gcr height (PI - tilt) pitch)
  = value (f_z0_limit gcr height tilt pitch) /\
  value (f_z0_limit gcr height (PI - tilt) pitch)
  = value (f_z1_limit gcr height tilt pitch).
Proof.
  unfold f_z0_limit, f_z1_limit. rewrite near_flat_mirror.
  destruct (near_flat tilt); [split; reflexivity|].
  rewrite !value_bind.
  cbn [value ret div fst snd bind sky_angle_0_tangent sky_angle_tangent].
  rewrite !PI_minus_PI_minus, tan_PI_minus, !Rdiv_opp_r.
  split; ring.
Qed.

(** X9: away from the near-flat range, the angles to the next rows at the
    mirrored point and tilt are the angles to the previous rows,
    exchanged. *)
Theorem ground_sky_angles_next_mirrors_prev (f_z gcr height tilt pitch : R) :
  near_flat tilt = false ->
  value (ground_sky_angles_next (1 - f_z) gcr height (PI - tilt) pitch)
  = (snd (value (ground_sky_angles_prev f_z gcr height tilt pitch)),
     fst (value (ground_sky_angles_prev f_z gcr height tilt pitch))).
Proof.
  intros Hnf. rewrite ground_sky_angles_next_value.
  unfold ground_sky_angles_next_general, ground_sky_angles_prev.
  rewrite !value_bind, Hnf.
  cbn [value ret div fst snd bind _gcr_prime].
  rewrite !PI_minus_PI_minus, sin_PI_x.
  replace (1 - (1 - f_z)) with f_z by ring. reflexivity.
Qed.

Lemma ground_sky_angles_next_mirrors_prev_witness :
  value (ground_sky_angles_next (1 - 1 / 4) (1 / 2) 1 (PI - 1) 2)
  = (snd (value (ground_sky_angles_prev (1 / 4) (1 / 2) 1 1 2)),
     fst (value (ground_sky_angles_prev (1 / 4) (1 / 2) 1 1 2))).
Proof.
  apply (ground_sky_angles_next_mirrors_prev (1 / 4) (1 / 2) 1 1 2).
  apply near_flat_1_false.
Defined.

(** X10: away from the near-flat range, the angle to the top of the
    previous row beyond the current one is the current-row angle psi_0 one
    row further (f_z + 1), and the angle to the top of the next row beyond
    is the current-row psi_1 one row back (f_z - 1). *)
Theorem neighbour_angles_are_shifted (f_z gcr height tilt pitch : R) :
  near_flat tilt = false ->
  fst (value (ground_sky_angles_prev f_z gcr height tilt pitch))
  = fst (value (ground_sky_angles (f_z + 1) gcr height tilt pitch)) /\
  snd (value (ground_sky_angles_next f_z gcr height tilt pitch))
  = snd (value (ground_sky_angles (f_z - 1) gcr height tilt pitch)).
Proof.
  intros Hnf.
  unfold ground_sky_angles_prev, ground_sky_angles_next, ground_sky_angles.
  rewrite Hnf, !value_bind.
  cbn [value ret div fst snd bind _gcr_prime].
  split.
  - now replace (f_z + 1) with (1 + f_z) by ring.
  - now replace (1 - (f_z - 1)) with (1 + (1 - f_z)) by ring.
Qed.

Lemma neighbour_angles_are_shifted_witness :
  fst (value (ground_sky_angles_prev (1 / 4) (1 / 2) 1 1 2))
  = fst (value (ground_sky_angles (1 / 4 + 1) (1 / 2) 1 1 2)) /\
  snd (value (ground_sky_angles_next (1 / 4) (1 / 2) 1 1 2))
  = snd (value (ground_sky_angles (1 / 4 - 1) (1 / 2) 1 1 2)).
Proof.
  apply (neighbour_angles_are_shifted (1 / 4) (1 / 2) 1 1 2).
  apply near_flat_1_false.
Defined.

(* ===================================================================== *)
(** ** The current-row view factor *)
(* ===================================================================== *)

Lemma cos_arctan2 y x :
  0 < y -> cos (arctan2 y x) * sqrt (x * x + y * y) = x.
Proof.
  intros Hy.
  destruct (Rtotal_order x 0) as [Hx|[Hx|Hx]].
  - (* x < 0 *)
    rewrite arctan2_neg_x by lra. rewrite neg_cos, cos_atan.
    set (u := y / x).
    assert (Hs : 0 < sqrt (1 + u²)).
    { apply sqrt_lt_R0. unfold Rsqr. nra. }
    assert (Hss : sqrt (1 + u²) * sqrt (1 + u²) = 1 + u²).
    { apply sqrt_sqrt. unfold Rsqr. nra. }
    assert (Hr : sqrt (x * x + y * y) = - x * sqrt (1 + u²)).
    { apply sqrt_lem_1; [nra | nra |].
      replace (- x * sqrt (1 + u²) * (- x * sqrt (1 + u²)))
        with (x * x * (sqrt (1 + u²) * sqrt (1 + u²))) by ring.
      rewrite Hss. unfold Rsqr, u. field. lra. }
    rewrite Hr. field. lra.
  - (* x = 0 *)
    subst x. rewrite arctan2_zero_x, cos_PI2 by exact Hy. ring.
  - (* 0 < x *)
    rewrite arctan2_pos_x by lra. rewrite cos_atan.
    set (u := y / x).
    assert (Hs : 0 < sqrt (1 + u²)).
    { apply sqrt_lt_R0. unfold Rsqr. nra. }
    assert (Hss : sqrt (1 + u²) * sqrt (1 + u²) = 1 + u²).
    { apply sqrt_sqrt. unfold Rsqr. nra. }
    assert (Hr : sqrt (x * x + y * y) = x * sqrt (1 + u²)).
    { apply sqrt_lem_1; [nra | nra |].
      replace (x * sqrt (1 + u²) * (x * sqrt (1 + u²)))
        with (x * x * (sqrt (1 + u²) * sqrt (1 + u²))) by ring.
      rewrite Hss. unfold Rsqr, u. field. lra. }
    rewrite Hr. field. lra.
Qed.

(** Two directions at the same height whose abscissae add up to a
    non-negative number have cosines that add up to a non-negative number. *)
Lemma cos_arctan2_sum_nonneg y x0 x1 :
  0 < y -> 0 <= x0 + x1 ->
  0 <= cos (arctan2 y x0) + cos (arctan2 y x1).
Proof.
  intros Hy Hsum.
  pose proof (cos_arctan2 y x0 Hy) as H0.
  pose proof (cos_arctan2 y x1 Hy) as H1.
  set (c0 := cos (arctan2 y x0)) in *. set (c1 := cos (arctan2 y x1)) in *.
  set (r0 := sqrt (x0 * x0 + y * y)) in *.
  set (r1 := sqrt (x1 * x1 + y * y)) in *.
  assert (Hr0 : 0 < r0) by (apply sqrt_lt_R0; nra).
  assert (Hr1 : 0 < r1) by (apply sqrt_lt_R0; nra).
  assert (Hs0 : r0 * r0 = x0 * x0 + y * y) by (apply sqrt_sqrt; nra).
  assert (Hs1 : r1 * r1 = x1 * x1 + y * y) by (apply sqrt_sqrt; nra).
  assert (Hnum : 0 <= x0 * r1 + x1 * r0).
  { destruct (Rle_dec 0 x0) as [P0|N0]; destruct (Rle_dec 0 x1) as [P1|N1].
    - assert (0 <= x0 * r1) by nra. assert (0 <= x1 * r0) by nra. lra.
    - (* x1 < 0 <= x0, x0 >= - x1 *)
      assert (Ha : 0 <= x0 * r1) by nra.
      assert (Hb : 0 <= - x1 * r0) by nra.
      assert (Hsq : (- x1 * r0) * (- x1 * r0) <= (x0 * r1) * (x0 * r1)).
      { replace (- x1 * r0 * (- x1 * r0)) with (x1 * x1 * (r0 * r0)) by ring.
        replace (x0 * r1 * (x0 * r1)) with (x0 * x0 * (r1 * r1)) by ring.
        rewrite Hs0, Hs1.
        assert (x1 * x1 <= x0 * x0) by nra.
        assert (0 <= y * y) by nra. nra. }
      assert (- x1 * r0 <= x0 * r1) by nra. lra.
    - assert (Ha : 0 <= x1 * r0) by nra.
      assert (Hb : 0 <= - x0 * r1) by nra.
      assert (Hsq : (- x0 * r1) * (- x0 * r1) <= (x1 * r0) * (x1 * r0)).
      { replace (- x0 * r1 * (- x0 * r1)) with (x0 * x0 * (r1 * r1)) by ring.
        replace (x1 * r0 * (x1 * r0)) with (x1 * x1 * (r0 * r0)) by ring.
        rewrite Hs0, Hs1.
        assert (x0 * x0 <= x1 * x1) by nra.
        assert (0 <= y * y) by nra. nra. }
      assert (- x0 * r1 <= x1 * r0) by nra. lra.
    - lra. }
  assert (E : c0 + c1 = (x0 * r1 + x1 * r0) / (r0 * r1)).
  { rewrite <- H0, <- H1. field. lra. }
  rewrite E. apply Rmult_le_pos; [exact Hnum|].
  left. apply Rinv_0_lt_compat. nra.
Qed.

Lemma gcr_prime_pos gcr height tilt pitch :
  valid_config gcr height tilt pitch -> 0 < tilt < PI ->
  0 < gcr + height / sin tilt / pitch.
Proof.
  intros (Hg & Hh & Ht & Hp) Hopen.
  pose proof (sin_pos_open tilt Hopen) as Hsin.
  assert (0 <= height / sin tilt / pitch).
  { unfold Rdiv. apply Rmult_le_pos; [apply Rmult_le_pos|];
      try lra; left; apply Rinv_0_lt_compat; lra. }
  lra.
Qed.

Lemma current_row_view_factor_bounds f_z gcr height tilt pitch :
  valid_config gcr height tilt pitch ->
  0 <= calc_fz_sky
         (fst (value (ground_sky_angles f_z gcr height tilt pitch)))
         (snd (value (ground_sky_angles f_z gcr height tilt pitch))) <= 1.
Proof.
  intros Hv. unfold calc_fz_sky.
  split.
  2:{ pose proof (COS_bound
                    (fst (value (ground_sky_angles f_z gcr height tilt pitch)))).
      pose proof (COS_bound
                    (snd (value (ground_sky_angles f_z gcr height tilt pitch)))).
      lra. }
  destruct (near_flat tilt) eqn:Hnf.
  - rewrite ground_sky_angles_near_flat by exact Hnf.
    cbn [value fst snd]. rewrite cos_0. lra.
  - pose proof (not_near_flat_open tilt Hnf) as Hopen.
    pose proof (gcr_prime_pos _ _ _ _ Hv Hopen) as Hgp.
    pose proof (sin_pos_open tilt Hopen) as Hsin.
    unfold ground_sky_angles. rewrite Hnf, !value_bind.
    cbn [value ret div fst snd bind _gcr_prime].
    rewrite sin_PI_x, cos_PI_minus.
    set (gp := gcr + height / sin tilt / pitch) in *.
    assert (0 <= cos (arctan2 (sin tilt) (f_z / gp + - cos tilt))
                 + cos (arctan2 (sin tilt) ((1 - f_z) / gp + cos tilt))).
    { apply cos_arctan2_sum_nonneg; [exact Hsin|].
      replace (f_z / gp + - cos tilt + ((1 - f_z) / gp + cos tilt))
        with (1 / gp) by (field; lra).
      left. apply Rdiv_lt_0_compat; lra. }
    lra.
Qed.

(** X11: on a valid configuration the view factor of the current row,
    calc_fz_sky of the two angles of ground_sky_angles, lies in [0,1] at
    every ground position f_z. *)
Theorem current_row_view_factor_is_fraction (f_z gcr height tilt pitch : R) :
  valid_config gcr height tilt pitch ->
  let psi := value (ground_sky_angles f_z gcr height tilt pitch) in
  0 <= calc_fz_sky (fst psi) (snd psi) <= 1.
Proof. intros Hv. apply current_row_view_factor_bounds. exact Hv. Qed.

Lemma current_row_view_factor_is_fraction_witness :
  let psi := value (ground_sky_angles (1 / 4) (1 / 2) 1 1 2) in
  0 <= calc_fz_sky (fst psi) (snd psi) <= 1.
Proof.
  apply (current_row_view_factor_is_fraction (1 / 4) (1 / 2) 1 1 2).
  pose proof PI_gt_2. unfold valid_config. lra.
Defined.

(* ===================================================================== *)
(** ** Modules resting on the ground (height = 0) *)
(* ===================================================================== *)

(** Interpolation stays within the range of the samples. *)
Lemma interp1_range lo hi x : forall xp fp,
  xp <> [] -> length fp = length xp ->
  Forall (fun y => lo <= y <= hi) fp ->
  lo <= interp1 x xp fp <= hi.
Proof.
  induction xp as [|x0 xp IH]; intros fp Hne Hlen Hfp; [congruence|].
  destruct fp as [|y0 fp]; [discriminate|].
  inversion Hfp as [|? ? Hy0 Hfp']; subst.
  cbn [interp1].
  destruct (Rltb x0 x) eqn:E0; [|exact Hy0].
  destruct xp as [|x1 xp'].
  { destruct fp; exact Hy0. }
  destruct fp as [|y1 fp']; [discriminate|].
  destruct (Rltb x1 x) eqn:E1.
  - apply IH; [discriminate | cbn in *; lia | exact Hfp'].
  - apply Rltb_true in E0. apply Rltb_false in E1.
    inversion Hfp' as [|? ? Hy1 _]; subst.
    set (t := (x - x0) / (x1 - x0)).
    assert (Ht : 0 <= t <= 1).
    { unfold t. split.
      - apply Rmult_le_pos; [lra | left; apply Rinv_0_lt_compat; lra].
      - apply (Rmult_le_reg_r (x1 - x0)); [lra|].
        replace ((x - x0) / (x1 - x0) * (x1 - x0)) with (x - x0)
          by (field; lra). lra. }
    replace (y0 + (x - x0) * ((y1 - y0) / (x1 - x0)))
      with (y0 + t * (y1 - y0)) by (unfold t; field; lra).
    split; nra.
Qed.

Lemma interp_range lo hi x xp fp :
  xp <> [] -> length fp = length xp ->
  Forall (fun y => lo <= y <= hi) fp ->
  Forall (fun y => lo <= y <= hi) (interp x xp fp).
Proof.
  intros Hne Hlen Hfp. unfold interp. apply Forall_forall.
  intros y Hy. apply in_map_iff in Hy. destruct Hy as (xi & <- & _).
  now apply interp1_range.
Qed.

Lemma add_zeros_r a : add a (repeat 0 (length a)) = a.
Proof.
  induction a as [|x a IH]; [reflexivity|].
  cbn [length repeat add]. rewrite IH. f_equal. ring.
Qed.

Lemma visibility_limits_height_0 gcr tilt pitch :
  value (f_z0_limit gcr 0 tilt pitch) = 0 /\
  value (f_z1_limit gcr 0 tilt pitch) = 0.
Proof.
  unfold f_z0_limit, f_z1_limit.
  destruct (near_flat tilt).
  - cbn. unfold MAXROWS, Rdiv. split; ring.
  - rewrite !value_bind. cbn [value ret div fst snd bind].
    replace (0 / pitch) with 0 by (unfold Rdiv; ring).
    rewrite !Rmult_0_l. split; reflexivity.
Qed.

Lemma locals_height_0_fz_sky gcr tilt pitch npoints :
  let l := value (ground_sky_diffuse_view_factor_locals gcr 0 tilt pitch npoints)
  in
  Locals.fz0_sky_next l = [] /\ Locals.fz1_sky_prev l = [] /\
  Locals.fz l = linspace 0 1 (3 * npoints) /\
  Locals.fz_sky l
  = map (fun z =>
           let psi := value (ground_sky_angles z gcr 0 tilt pitch) in
           calc_fz_sky (fst psi) (snd psi))
      (Locals.fz l).
Proof.
  cbv zeta. destruct (visibility_limits_height_0 gcr tilt pitch) as [H0 H1].
  assert (E0 : Locals.fz0_sky_next
                 (value (ground_sky_diffuse_view_factor_locals gcr 0 tilt pitch
                           npoints)) = []).
  { rewrite locals_fz0_sky_next, locals_fz0_limit, H0.
    apply while_rows_none. lra. }
  assert (E1 : Locals.fz1_sky_prev
                 (value (ground_sky_diffuse_view_factor_locals gcr 0 tilt pitch
                           npoints)) = []).
  { rewrite locals_fz1_sky_prev, locals_fz1_limit, H1.
    apply while_rows_none. lra. }
  split; [exact E0|]. split; [exact E1|]. split.
  - rewrite locals_fz, locals_fz0_limit, locals_fz1_limit, H0, H1.
    rewrite Rmin_left, Rmax_left by lra. reflexivity.
  - rewrite locals_fz_sky, E0, E1, locals_psi_z, map_map.
    unfold sum_axis0. cbn [fold_left].
    set (cur := map _ _).
    replace (length (Locals.fz _)) with (length cur)
      by (unfold cur; now rewrite length_map).
    rewrite !add_zeros_r. reflexivity.
Qed.

Lemma profile_height_0_range gcr tilt pitch npoints lo hi :
  (forall z,
      lo <= calc_fz_sky
              (fst (value (ground_sky_angles z gcr 0 tilt pitch)))
              (snd (value (ground_sky_angles z gcr 0 tilt pitch))) <= hi) ->
  Forall (fun v => lo <= v <= hi)
    (snd (value (ground_sky_diffuse_view_factor gcr 0 tilt pitch npoints))).
Proof.
  intros Hcur. rewrite locals_returned. cbn [snd].
  destruct (locals_height_0_fz_sky gcr tilt pitch npoints)
    as (_ & _ & Hfz & Hsky).
  cbv zeta in Hfz, Hsky. rewrite Hsky, Hfz, locals_fz_row.
  destruct npoints as [|n]; [constructor|].
  apply interp_range.
  - intros E. apply (f_equal (@length R)) in E.
    rewrite length_linspace in E. cbn in E. lia.
  - now rewrite length_map.
  - apply Forall_forall. intros v Hv. apply in_map_iff in Hv.
    destruct Hv as (z & <- & _). apply Hcur.
Qed.

(** X12: with the modules resting on the ground (height = 0) both
    visibility limits are 0, neither loop runs, and on a valid
    configuration every point of the returned profile lies in [0,1]; near
    flat every point is exactly 1. *)
Theorem ground_sky_profile_height_0 (gcr tilt pitch : R) (npoints : nat) :
  valid_config gcr 0 tilt pitch ->
  let l := value (ground_sky_diffuse_view_factor_locals gcr 0 tilt pitch npoints)
  in
  let out := value (ground_sky_diffuse_view_factor gcr 0 tilt pitch npoints) in
  Locals.fz0_limit l = 0 /\ Locals.fz1_limit l = 0 /\
  Locals.fz0_sky_next l = [] /\ Locals.fz1_sky_prev l = [] /\
  Forall (fun v => 0 <= v <= 1) (snd out) /\
  (near_flat tilt = true -> Forall (fun v => v = 1) (snd out)).
Proof.
  intros Hv. cbv zeta.
  destruct (visibility_limits_height_0 gcr tilt pitch) as [H0 H1].
  destruct (locals_height_0_fz_sky gcr tilt pitch npoints)
    as (E0 & E1 & _ & _). cbv zeta in E0, E1.
  split; [now rewrite locals_fz0_limit|].
  split; [now rewrite locals_fz1_limit|].
  split; [exact E0|]. split; [exact E1|]. split.
  - apply profile_height_0_range. intros z.
    apply current_row_view_factor_bounds. exact Hv.
  - intros Hnf.
    assert (H : Forall (fun v => 1 <= v <= 1)
                  (snd (value (ground_sky_diffuse_view_factor gcr 0 tilt pitch
                                 npoints)))).
    { apply profile_height_0_range. intros z.
      rewrite ground_sky_angles_near_flat by exact Hnf.
      cbn [value fst snd]. unfold calc_fz_sky. rewrite cos_0. lra. }
    eapply Forall_impl; [|exact H]. cbv beta. intros; lra.
Qed.

Lemma ground_sky_profile_height_0_witness :
  let out := value (ground_sky_diffuse_view_factor (1 / 2) 0 1 2 100) in
  Forall (fun v => 0 <= v <= 1) (snd out).
Proof.
  assert (Hv : valid_config (1 / 2) 0 1 2)
    by (pose proof PI_gt_2; unfold valid_config; lra).
  exact (proj1 (proj2 (proj2 (proj2 (proj2
           (ground_sky_profile_height_0 (1 / 2) 1 2 100 Hv)))))).
Defined.

Lemma trapz_bounds lo hi : forall y x,
  length y = length x ->
  Forall (fun v => lo <= v <= hi) y ->
  (forall i, (S i < length x)%nat -> nth i x 0 <= nth (S i) x 0) ->
  lo * (last x 0 - hd 0 x) <= trapz y x <= hi * (last x 0 - hd 0 x).
Proof.
  induction y as [|y0 y IH]; intros x Hlen Hy Hx.
  { destruct x; [cbn; lra | discriminate]. }
  destruct x as [|x0 x]; [discriminate|].
  destruct y as [|y1 y], x as [|x1 x]; try discriminate.
  { cbn. lra. }
  inversion Hy as [|? ? Hy0 Hy']; subst.
  inversion Hy' as [|? ? Hy1 _]; subst.
  assert (H01 : x0 <= x1) by (apply (Hx 0%nat); cbn; lia).
  specialize (IH (x1 :: x)).
  destruct IH as [IHl IHu].
  { cbn in *; lia. } { exact Hy'. }
  { intros i Hi. apply (Hx (S i)). cbn in *. lia. }
  change (trapz (y0 :: y1 :: y) (x0 :: x1 :: x))
    with ((x1 - x0) * (y0 + y1) / 2 + trapz (y1 :: y) (x1 :: x)).
  change (last (x0 :: x1 :: x) 0) with (last (x1 :: x) 0).
  cbn [hd] in *.
  split; nra.
Qed.

Lemma linspace_nondecreasing a b n i :
  a <= b -> (S i < length (linspace a b n))%nat ->
  nth i (linspace a b n) 0 <= nth (S i) (linspace a b n) 0.
Proof.
  intros Hab Hi. rewrite length_linspace in Hi.
  rewrite !nth_linspace by lia.
  assert (Hpos : 0 < INR (n - 1)) by (apply lt_0_INR; lia).
  assert (Hstep : 0 <= (b - a) / INR (n - 1)).
  { apply Rmult_le_pos; [lra | left; now apply Rinv_0_lt_compat]. }
  rewrite S_INR. nra.
Qed.

Lemma vf_ground_sky_height_0_range gcr tilt pitch npoints lo hi :
  (2 <= npoints)%nat ->
  (forall z,
      lo <= calc_fz_sky
              (fst (value (ground_sky_angles z gcr 0 tilt pitch)))
              (snd (value (ground_sky_angles z gcr 0 tilt pitch))) <= hi) ->
  lo <= fst (value (vf_ground_sky gcr 0 tilt pitch npoints)) <= hi.
Proof.
  intros Hn Hcur.
  pose proof (profile_height_0_range gcr tilt pitch npoints lo hi Hcur) as Hp.
  unfold vf_ground_sky. rewrite value_bind. cbn [value ret fst].
  change (fst (ground_sky_diffuse_view_factor gcr 0 tilt pitch npoints))
    with (value (ground_sky_diffuse_view_factor gcr 0 tilt pitch npoints)).
  set (out := value (ground_sky_diffuse_view_factor gcr 0 tilt pitch npoints))
    in *.
  assert (Hx : fst out = linspace 0 1 npoints) by reflexivity.
  assert (Hlen : length (snd out) = length (fst out)).
  { unfold out. rewrite locals_returned. cbn [fst snd].
    now rewrite length_interp. }
  pose proof (trapz_bounds lo hi (snd out) (fst out) Hlen Hp) as Ht.
  rewrite Hx in *.
  rewrite last_linspace, hd_linspace in Ht by lia.
  assert (Hmono : forall i, (S i < length (linspace 0 1 npoints))%nat ->
                    nth i (linspace 0 1 npoints) 0
                    <= nth (S i) (linspace 0 1 npoints) 0).
  { intros i Hi. apply linspace_nondecreasing; [lra | exact Hi]. }
  specialize (Ht Hmono). lra.
Qed.

(** X13: with the modules resting on the ground (height = 0), on a valid
    configuration and with npoints >= 2, the integrated ground-to-sky view
    factor of vf_ground_sky lies in [0,1]; near flat it is exactly 1. *)
Theorem vf_ground_sky_height_0 (gcr tilt pitch : R) (npoints : nat) :
  valid_config gcr 0 tilt pitch -> (2 <= npoints)%nat ->
  0 <= fst (value (vf_ground_sky gcr 0 tilt pitch npoints)) <= 1 /\
  (near_flat tilt = true ->
   fst (value (vf_ground_sky gcr 0 tilt pitch npoints)) = 1).
Proof.
  intros Hv Hn. split.
  - apply vf_ground_sky_height_0_range; [exact Hn|].
    intros z. apply current_row_view_factor_bounds. exact Hv.
  - intros Hnf.
    assert (1 <= fst (value (vf_ground_sky gcr 0 tilt pitch npoints)) <= 1).
    { apply vf_ground_sky_height_0_range; [exact Hn|]. intros z.
      rewrite ground_sky_angles_near_flat by exact Hnf.
      cbn [value fst snd]. unfold calc_fz_sky. rewrite cos_0. lra. }
    lra.
Qed.

Lemma vf_ground_sky_height_0_witness :
  0 <= fst (value (vf_ground_sky (1 / 2) 0 1 2 100)) <= 1 /\
  (near_flat 1 = true -> fst (value (vf_ground_sky (1 / 2) 0 1 2 100)) = 1).
Proof.
  apply (vf_ground_sky_height_0 (1 / 2) 1 2 100).
  - pose proof PI_gt_2. unfold valid_config. lra.
  - lia.
Defined.

(* ===================================================================== *)
(** ** Irradiance components *)
(* ===================================================================== *)

(** X14: for a non-negative ground-reflected irradiance, an unshaded
    fraction and a view factor in [0,1], and a diffuse fraction that is
    either non-finite or in [0,1], poa_ground_sky lies between 0 and the
    irradiance it adjusts. *)
Theorem poa_ground_sky_bounds
  (poa_ground f_gnd_beam vf_gnd_sky : R) (df : npfloat) :
  0 <= poa_ground -> 0 <= f_gnd_beam <= 1 -> 0 <= vf_gnd_sky <= 1 ->
  (forall d, df = Fin d -> 0 <= d <= 1) ->
  0 <= poa_ground_sky poa_ground f_gnd_beam df vf_gnd_sky <= poa_ground.
Proof.
  intros Hp Hf Hvf Hdf. unfold poa_ground_sky.
  set (d := where_finite df 0).
  assert (Hd : 0 <= d <= 1).
  { unfold d. destruct df; cbn; try lra. now apply Hdf. }
  assert (Hw : 0 <= f_gnd_beam * (1 - d) + d * vf_gnd_sky <= 1) by nra.
  split; nra.
Qed.

Lemma poa_ground_sky_bounds_witness :
  0 <= poa_ground_sky 40 (3 / 4) NaN (1 / 2) <= 40.
Proof.
  apply (poa_ground_sky_bounds 40 (3 / 4) (1 / 2) NaN); try lra.
  intros d H. discriminate H.
Defined.

(** X15: poa_sky_diffuse_pv and poa_ground_pv weigh the shaded and the
    unshaded view factor by the shade line: for f_x in [0,1] and a
    non-negative irradiance the result lies between the irradiance times
    the smaller and times the larger of the two view factors; it is the
    unshaded one at f_x = 0 and the shaded one at f_x = 1. *)
Theorem shade_weighted_components (poa f_x shade noshade : R) :
  0 <= poa -> 0 <= f_x <= 1 ->
  poa * Rmin shade noshade <= poa_sky_diffuse_pv poa f_x shade noshade
    <= poa * Rmax shade noshade /\
  poa_ground_pv poa f_x shade noshade
  = poa_sky_diffuse_pv poa f_x shade noshade /\
  poa_sky_diffuse_pv poa 0 shade noshade = poa * noshade /\
  poa_sky_diffuse_pv poa 1 shade noshade = poa * shade.
Proof.
  intros Hp Hf. unfold poa_sky_diffuse_pv, poa_ground_pv.
  pose proof (Rmin_l shade noshade). pose proof (Rmin_r shade noshade).
  pose proof (Rmax_l shade noshade). pose proof (Rmax_r shade noshade).
  assert (Rmin shade noshade
          <= f_x * shade + (1 - f_x) * noshade <= Rmax shade noshade)
    by (split; nra).
  repeat split; try ring; nra.
Qed.

Lemma shade_weighted_components_witness :
  100 * Rmin (1 / 2) (3 / 4) <= poa_sky_diffuse_pv 100 (1 / 3) (1 / 2) (3 / 4)
    <= 100 * Rmax (1 / 2) (3 / 4) /\
  poa_ground_pv 100 (1 / 3) (1 / 2) (3 / 4)
  = poa_sky_diffuse_pv 100 (1 / 3) (1 / 2) (3 / 4) /\
  poa_sky_diffuse_pv 100 0 (1 / 2) (3 / 4) = 100 * (3 / 4) /\
  poa_sky_diffuse_pv 100 1 (1 / 2) (3 / 4) = 100 * (1 / 2).
Proof.
  apply (shade_weighted_components 100 (1 / 3) (1 / 2) (3 / 4)); lra.
Defined.

(** X16: with the shade line computed by shade_line, a non-negative direct
    irradiance and an incidence-angle modifier in [0,1], the direct
    irradiance on the module lies between 0 and the unshaded one, for every
    gcr, tilt and projection tangent. *)
Theorem poa_direct_pv_bounds (poa_direct iam gcr tilt tan_phi : R) :
  0 <= poa_direct -> 0 <= iam <= 1 ->
  0 <= poa_direct_pv poa_direct iam (value (shade_line gcr tilt tan_phi))
    <= poa_direct.
Proof.
  intros Hp Hi. pose proof (shade_line_bounds gcr tilt tan_phi) as Hf.
  unfold poa_direct_pv.
  set (f_x := value (shade_line gcr tilt tan_phi)) in *.
  assert (0 <= iam * (1 - f_x) <= 1) by nra.
  split; nra.
Qed.

Lemma poa_direct_pv_bounds_witness :
  0 <= poa_direct_pv 900 (19 / 20) (value (shade_line (1 / 2) 1 3)) <= 900.
Proof. apply (poa_direct_pv_bounds 900 (19 / 20) (1 / 2) 1 3); lra. Defined.

(* ===================================================================== *)
(** ** Quotients of the module view factors *)
(* ===================================================================== *)

Lemma f_sky_diffuse_pv_divisors tilt a b :
  divisors (f_sky_diffuse_pv tilt a b) = [1 + cos tilt; 1 + cos tilt].
Proof. reflexivity. Qed.

Lemma f_ground_pv_divisors tilt a b :
  divisors (f_ground_pv tilt a b) = [1 - cos tilt; 1 - cos tilt].
Proof. reflexivity. Qed.

(** Outside the near-flat range the cosine of the tilt stays away from
    1 and -1 by 1 - cos(EPS), which is about 5e-7. *)
Lemma cos_EPS_margin : 4 / 10000000 <= 1 - cos EPS /\ 0 < cos EPS.
Proof.
  assert (HE : EPS = 1 / 1000) by reflexivity.
  pose proof PI_gt_2 as Hpi.
  split.
  - assert (Hb : cos EPS <= cos_approx EPS (2 * (0 + 1))).
    { apply pre_cos_bound; rewrite HE; lra. }
    unfold cos_approx, cos_term in Hb.
    cbn [sum_f_R0 Nat.mul Nat.add Factorial.fact pow INR] in Hb.
    rewrite HE in *. lra.
  - apply cos_gt_0; rewrite HE; lra.
Qed.

Lemma not_near_flat_cos tilt :
  near_flat tilt = false -> - cos EPS <= cos tilt <= cos EPS.
Proof.
  intros H. apply near_flat_false in H.
  assert (HE : EPS = 1 / 1000) by reflexivity.
  pose proof PI_gt_2 as Hpi.
  split.
  - rewrite <- cos_PI_minus. apply cos_decr_1; lra.
  - apply cos_decr_1; lra.
Qed.

(** X17: outside the near-flat range (EPS <= tilt <= pi - EPS) the module
    view factors of the sky and of the ground are computed without a zero
    divisor: each divisor, 1 + cos(tilt) or 1 - cos(tilt), is at least
    1 - cos(EPS), which exceeds 4e-7. *)
Theorem module_view_factors_div_safe (tilt a b : R) :
  near_flat tilt = false ->
  div_safe (f_sky_diffuse_pv tilt a b) /\
  div_safe (f_ground_pv tilt a b) /\
  4 / 10000000 <= 1 - cos EPS /\
  Forall (fun d => 1 - cos EPS <= d) (divisors (f_sky_diffuse_pv tilt a b)) /\
  Forall (fun d => 1 - cos EPS <= d) (divisors (f_ground_pv tilt a b)).
Proof.
  intros Hnf. pose proof (not_near_flat_cos tilt Hnf) as Hc.
  destruct cos_EPS_margin as [Hm _].
  unfold div_safe.
  rewrite f_sky_diffuse_pv_divisors, f_ground_pv_divisors.
  split; [repeat constructor; lra|].
  split; [repeat constructor; lra|].
  split; [exact Hm|].
  split; (apply Forall_cons; [lra|]; apply Forall_cons; [lra|];
          apply Forall_nil).
Qed.

Lemma module_view_factors_div_safe_witness :
  div_safe (f_sky_diffuse_pv 1 2 3) /\
  div_safe (f_ground_pv 1 2 3) /\
  4 / 10000000 <= 1 - cos EPS /\
  Forall (fun d => 1 - cos EPS <= d) (divisors (f_sky_diffuse_pv 1 2 3)) /\
  Forall (fun d => 1 - cos EPS <= d) (divisors (f_ground_pv 1 2 3)).
Proof.
  apply (module_view_factors_div_safe 1 2 3). apply near_flat_1_false.
Defined.





(* ===================================================================== *)
(** ** Runs without a zero divisor *)
(* ===================================================================== *)

Lemma div_safe_ret {A} (a : A) : div_safe (ret a).
Proof. constructor. Qed.

Lemma div_safe_bind {A B} (m : D A) (f : A -> D B) :
  div_safe m -> div_safe (f (value m)) -> div_safe (bind m f).
Proof.
  unfold div_safe. rewrite divisors_bind. intros Hm Hf.
  apply Forall_app. split; assumption.
Qed.

Lemma div_safe_div a b : b <> 0 -> div_safe (a // b).
Proof. intros H. repeat constructor. exact H. Qed.

Lemma div_safe_mapM {A B} (f : A -> D B) (l : list A) :
  (forall a, div_safe (f a)) -> div_safe (mapM f l).
Proof.
  intros H. induction l as [|a l IH]; cbn [mapM]; [apply div_safe_ret|].
  apply div_safe_bind; [apply H|].
  apply div_safe_bind; [exact IH | apply div_safe_ret].
Qed.

Lemma div_safe_inv {A B} (m : D A) (f : A -> D B) :
  div_safe (bind m f) -> div_safe m /\ div_safe (f (value m)).
Proof.
  unfold div_safe. rewrite divisors_bind. apply Forall_app.
Qed.

Ltac div_steps :=
  repeat (first [ apply div_safe_ret
                | apply div_safe_div
                | apply div_safe_bind ]; cbv beta).

Lemma inv_gcr_ge_1 gcr : 0 < gcr <= 1 -> 1 <= 1 / gcr.
Proof.
  intros Hg. apply (Rmult_le_reg_r gcr); [lra|].
  replace (1 / gcr * gcr) with 1 by (field; lra). lra.
Qed.

(** On a valid configuration away from the near-flat range and from
    tilt = pi/2 every quotient of the evaluation has a non-zero divisor. *)
Section SafeRun.

Variables gcr height tilt pitch : R.
Hypothesis Hvalid : valid_config gcr height tilt pitch.
Hypothesis Hnf : near_flat tilt = false.
Hypothesis Hcos : cos tilt <> 0.

Lemma safe_run_facts :
  0 < sin tilt /\ -1 < cos tilt < 1 /\ tan tilt <> 0 /\ 1 <= 1 / gcr /\
  0 < gcr + height / sin tilt / pitch /\ 0 < gcr /\ 0 < pitch.
Proof.
  pose proof (not_near_flat_open tilt Hnf) as Hopen.
  pose proof (sin_pos_open tilt Hopen) as Hsin.
  pose proof (gcr_prime_pos _ _ _ _ Hvalid Hopen) as Hgp.
  destruct Hvalid as (Hg & Hh & Ht & Hp).
  split; [exact Hsin|]. split; [apply cos_open_lt_1; exact Hopen|].
  split; [apply tan_neq_0; lra|]. split; [apply inv_gcr_ge_1; exact Hg|].
  split; [exact Hgp|]. lra.
Qed.

Lemma gcr_prime_div_safe : div_safe (_gcr_prime gcr height tilt pitch).
Proof.
  destruct safe_run_facts as (Hs & _ & _ & _ & _ & _ & Hp).
  unfold _gcr_prime. div_steps; lra.
Qed.

Lemma ground_sky_angles_div_safe f_z :
  div_safe (ground_sky_angles f_z gcr height tilt pitch).
Proof.
  destruct safe_run_facts as (Hs & _ & _ & _ & Hgp & _ & Hp).
  unfold ground_sky_angles. rewrite Hnf.
  apply div_safe_bind; [apply gcr_prime_div_safe|].
  cbv beta zeta. div_steps; cbn [value _gcr_prime bind div ret fst]; lra.
Qed.

Lemma ground_sky_angles_prev_div_safe f_z :
  div_safe (ground_sky_angles_prev f_z gcr height tilt pitch).
Proof.
  destruct safe_run_facts as (Hs & _ & Htan & _ & Hgp & _ & Hp).
  unfold ground_sky_angles_prev.
  apply div_safe_bind; [apply gcr_prime_div_safe|].
  cbv beta zeta. rewrite Hnf.
  div_steps; cbn [value _gcr_prime bind div ret fst]; try lra; exact Htan.
Qed.

Lemma ground_sky_angles_next_div_safe f_z :
  div_safe (ground_sky_angles_next f_z gcr height tilt pitch).
Proof.
  destruct safe_run_facts as (Hs & _ & Htan & _ & Hgp & _ & Hp).
  unfold ground_sky_angles_next.
  apply div_safe_bind; [apply gcr_prime_div_safe|].
  cbv beta zeta. rewrite Hnf.
  div_steps; cbn [value _gcr_prime bind div ret fst]; try lra.
  rewrite tan_PI_minus. lra.
Qed.

Lemma sky_angle_tangent_div_safe t f_x :
  -1 < cos t < 1 -> 0 <= f_x <= 1 ->
  div_safe (sky_angle_tangent gcr t f_x).
Proof.
  intros Hc Hf.
  destruct safe_run_facts as (_ & _ & _ & Hig & _ & Hg & _).
  unfold sky_angle_tangent. cbv zeta.
  div_steps; cbn [value div fst]; [lra | nra].
Qed.

Lemma ground_angle_tangent_div_safe t f_x :
  -1 < cos t < 1 -> 0 <= f_x <= 1 ->
  div_safe (ground_angle_tangent gcr t f_x).
Proof.
  intros Hc Hf.
  destruct safe_run_facts as (_ & _ & _ & Hig & _ & Hg & _).
  unfold ground_angle_tangent.
  div_steps; cbn [value div fst]; [lra | nra].
Qed.

Lemma sky_angle_0_tangent_value t :
  value (sky_angle_0_tangent gcr t) = sin t / (1 / gcr - cos t).
Proof.
  unfold sky_angle_0_tangent, sky_angle_tangent.
  rewrite value_bind. cbn [value div fst]. f_equal; ring.
Qed.

Lemma f_z0_limit_div_safe : div_safe (f_z0_limit gcr height tilt pitch).
Proof.
  destruct safe_run_facts as (Hs & Hc & Htan & Hig & _ & Hg & Hp).
  unfold f_z0_limit. rewrite Hnf.
  apply div_safe_bind;
    [apply sky_angle_tangent_div_safe; [exact Hc | lra]|].
  cbv beta. rewrite sky_angle_0_tangent_value.
  div_steps; try lra; try exact Htan.
  unfold Rdiv. apply Rmult_integral_contrapositive_currified; [lra|].
  apply Rinv_neq_0_compat. lra.
Qed.

Lemma f_z1_limit_div_safe : div_safe (f_z1_limit gcr height tilt pitch).
Proof.
  destruct safe_run_facts as (Hs & Hc & Htan & Hig & _ & Hg & Hp).
  assert (Hc' : -1 < cos (PI - tilt) < 1) by (rewrite cos_PI_minus; lra).
  unfold f_z1_limit. rewrite Hnf.
  apply div_safe_bind;
    [apply sky_angle_tangent_div_safe; [exact Hc' | lra]|].
  cbv beta. rewrite sky_angle_0_tangent_value.
  div_steps; try lra; try exact Htan.
  unfold Rdiv. apply Rmult_integral_contrapositive_currified;
    [rewrite sin_PI_x; lra|].
  apply Rinv_neq_0_compat. lra.
Qed.

Lemma locals_div_safe npoints :
  div_safe (ground_sky_diffuse_view_factor_locals gcr height tilt pitch npoints).
Proof.
  unfold ground_sky_diffuse_view_factor_locals.
  apply div_safe_bind; [apply f_z0_limit_div_safe|]. cbv beta.
  apply div_safe_bind; [apply f_z1_limit_div_safe|]. cbv beta zeta.
  apply div_safe_bind;
    [apply div_safe_mapM; intros z; apply ground_sky_angles_div_safe|].
  cbv beta.
  apply div_safe_bind;
    [apply div_safe_mapM; intros z; apply ground_sky_angles_prev_div_safe|].
  cbv beta.
  apply div_safe_bind;
    [apply div_safe_mapM; intros z; apply ground_sky_angles_next_div_safe|].
  apply div_safe_ret.
Qed.

Lemma vf_ground_sky_div_safe npoints :
  div_safe (vf_ground_sky gcr height tilt pitch npoints).
Proof.
  unfold vf_ground_sky, ground_sky_diffuse_view_factor.
  apply div_safe_bind; [|apply div_safe_ret].
  apply div_safe_bind; [apply locals_div_safe | apply div_safe_ret].
Qed.

Lemma f_sky_diffuse_pv_div_safe a b : div_safe (f_sky_diffuse_pv tilt a b).
Proof.
  destruct safe_run_facts as (_ & Hc & _).
  unfold div_safe. rewrite f_sky_diffuse_pv_divisors.
  repeat constructor; lra.
Qed.

Lemma f_ground_pv_div_safe a b : div_safe (f_ground_pv tilt a b).
Proof.
  destruct safe_run_facts as (_ & Hc & _).
  unfold div_safe. rewrite f_ground_pv_divisors.
  repeat constructor; lra.
Qed.

Lemma get_irradiance_div_safe
  (solar_zenith solar_azimuth system_azimuth ghi dhi poa_ground
     poa_sky_diffuse poa_direct iam : R) (npoints : nat) (all_output : bool) :
  ghi <> 0 ->
  cos tilt
  + sin tilt
    * solar_projection_tangent solar_zenith solar_azimuth system_azimuth <> 0 ->
  div_safe (get_irradiance solar_zenith solar_azimuth system_azimuth gcr
              height tilt pitch ghi dhi poa_ground poa_sky_diffuse poa_direct
              iam npoints all_output).
Proof.
  intros Hghi Hproj.
  destruct safe_run_facts as (_ & Hc & _ & _ & _ & Hg & _).
  set (tan_phi :=
         solar_projection_tangent solar_zenith solar_azimuth system_azimuth)
    in *.
  pose proof (shade_line_bounds gcr tilt tan_phi) as Hfx.
  unfold get_irradiance. cbv zeta. fold tan_phi.
  apply div_safe_bind; [repeat constructor; exact Hghi|]. cbv beta.
  apply div_safe_bind; [apply vf_ground_sky_div_safe|]. cbv beta.
  apply div_safe_bind;
    [unfold div_safe; rewrite shade_line_divisors; repeat constructor;
     [lra | exact Hproj]|].
  cbv beta.
  apply div_safe_bind; [apply sky_angle_tangent_div_safe; assumption|].
  cbv beta.
  apply div_safe_bind;
    [apply sky_angle_tangent_div_safe; [exact Hc | lra]|].
  cbv beta.
  apply div_safe_bind; [apply f_sky_diffuse_pv_div_safe|]. cbv beta.
  apply div_safe_bind; [apply ground_angle_tangent_div_safe; assumption|].
  cbv beta.
  apply div_safe_bind;
    [apply ground_angle_tangent_div_safe; [exact Hc | lra]|].
  cbv beta.
  apply div_safe_bind; [apply f_ground_pv_div_safe|].
  apply div_safe_ret.
Qed.

End SafeRun.

(** The same on the mirrored geometry of the back side. *)
Lemma backside_valid_config gcr height tilt pitch system_azimuth :
  valid_config gcr height tilt pitch ->
  valid_config gcr height (fst (_backside tilt system_azimuth)) pitch.
Proof.
  unfold valid_config, _backside. cbn [fst]. intros (? & ? & ? & ?).
  repeat split; lra.
Qed.

Lemma cos_period_Z x k : cos (x + IZR k * (2 * PI)) = cos x.
Proof.
  destruct (Z_le_gt_dec 0 k) as [Hk|Hk].
  - rewrite <- (Z2Nat.id k Hk), <- INR_IZR_INZ.
    replace (x + INR (Z.to_nat k) * (2 * PI))
      with (x + 2 * INR (Z.to_nat k) * PI) by ring.
    apply cos_period.
  - assert (Hn : (0 <= - k)%Z) by lia.
    rewrite <- (cos_period (x + IZR k * (2 * PI)) (Z.to_nat (- k))).
    f_equal. rewrite INR_IZR_INZ, (Z2Nat.id _ Hn), opp_IZR. ring.
Qed.

Lemma backside_projection_tangent solar_zenith solar_azimuth tilt sysaz :
  solar_projection_tangent solar_zenith solar_azimuth
    (snd (_backside tilt sysaz))
  = - solar_projection_tangent solar_zenith solar_azimuth sysaz.
Proof.
  unfold solar_projection_tangent, _backside, mod_. cbn [snd].
  set (k := Int_part ((PI + sysaz) / (2 * PI))).
  replace (solar_azimuth - (PI + sysaz - IZR k * (2 * PI)))
    with (solar_azimuth - sysaz - PI + IZR k * (2 * PI)) by ring.
  rewrite cos_period_Z.
  replace (solar_azimuth - sysaz - PI) with (- (PI - (solar_azimuth - sysaz)))
    by ring.
  rewrite cos_neg, cos_PI_minus. ring.
Qed.

Lemma backside_run_div_safe
  (gcr height tilt pitch solar_zenith solar_azimuth system_azimuth ghi dhi
     poa_ground poa_sky_diffuse poa_direct iam : R)
  (npoints : nat) (all_output : bool) :
  valid_config gcr height tilt pitch -> near_flat tilt = false ->
  cos tilt <> 0 -> ghi <> 0 ->
  cos tilt
  + sin tilt
    * solar_projection_tangent solar_zenith solar_azimuth system_azimuth <> 0 ->
  let back := _backside tilt system_azimuth in
  div_safe (get_irradiance solar_zenith solar_azimuth (snd back) gcr height
              (fst back) pitch ghi dhi poa_ground poa_sky_diffuse poa_direct
              iam npoints all_output).
Proof.
  intros Hv Hnf Hcos Hghi Hproj back.
  apply get_irradiance_div_safe.
  - apply backside_valid_config. exact Hv.
  - unfold back, _backside. cbn [fst]. now rewrite near_flat_mirror.
  - unfold back, _backside. cbn [fst]. rewrite cos_PI_minus. lra.
  - exact Hghi.
  - unfold back. rewrite backside_projection_tangent.
    unfold _backside. cbn [fst]. rewrite cos_PI_minus, sin_PI_x.
    intros E. apply Hproj.
    set (tp := solar_projection_tangent _ _ _) in *. lra.
Qed.

(** A reference configuration: gcr 0.5, height 1, tilt 1 rad, pitch 2, the
    sun at zenith 1 rad in the azimuth of the modules, ghi 500. *)
Lemma reference_valid_config : valid_config (1 / 2) 1 1 2.
Proof. pose proof PI_gt_2. unfold valid_config. lra. Qed.

Lemma reference_cos_tilt : cos 1 <> 0.
Proof. pose proof PI_gt_2. apply Rgt_not_eq. apply cos_gt_0; lra. Qed.

Lemma reference_projection :
  cos 1 + sin 1 * solar_projection_tangent 1 3 3 <> 0.
Proof.
  pose proof PI_gt_2 as Hpi.
  assert (Hc : 0 < cos 1) by (apply cos_gt_0; lra).
  assert (Hs : 0 < sin 1) by (apply sin_gt_0; lra).
  assert (Ht : 0 < tan 1) by (apply tan_gt_0; lra).
  unfold solar_projection_tangent.
  replace (3 - 3) with 0 by ring. rewrite cos_0. nra.
Qed.

Lemma reference_front_run_div_safe
  (poa_ground poa_sky_diffuse poa_direct iam : R)
  (npoints : nat) (all_output : bool) :
  div_safe (get_irradiance 1 3 3 (1 / 2) 1 1 2 500 100 poa_ground
              poa_sky_diffuse poa_direct iam npoints all_output).
Proof.
  apply get_irradiance_div_safe.
  - apply reference_valid_config.
  - apply near_flat_1_false.
  - apply reference_cos_tilt.
  - lra.
  - apply reference_projection.
Qed.

Lemma reference_back_run_div_safe
  (poa_ground poa_sky_diffuse poa_direct iam : R)
  (npoints : nat) (all_output : bool) :
  div_safe (get_irradiance 1 3 (snd (_backside 1 3)) (1 / 2) 1
              (fst (_backside 1 3)) 2 500 100 poa_ground poa_sky_diffuse
              poa_direct iam npoints all_output).
Proof.
  apply (backside_run_div_safe (1 / 2) 1 1 2 1 3 3 500 100).
  - apply reference_valid_config.
  - apply near_flat_1_false.
  - apply reference_cos_tilt.
  - lra.
  - apply reference_projection.
Qed.

(* ===================================================================== *)
(** ** The returned mapping *)
(* ===================================================================== *)

(** X19: on a valid configuration away from the near-flat range and from
    tilt = pi/2, with ghi non-zero, npoints >= 1 and the sun off the module
    plane (cos(tilt) + sin(tilt)*tan_phi non-zero), get_irradiance divides by
    nothing zero, and in the mapping it returns the global irradiance is
    the direct plus the diffuse one, the diffuse one is the ground plus the
    sky one, and the direct one is poa_direct*iam*(1 - shade line).
    Without all_output the mapping has exactly these five keys (looking up
    a diagnostic such as 'shade_line' fails); with it, eighteen. *)
Theorem get_irradiance_mapping
  (solar_zenith solar_azimuth system_azimuth gcr height tilt pitch ghi dhi
     poa_ground poa_sky_diffuse poa_direct iam : R)
  (npoints : nat) (all_output : bool) :
  valid_config gcr height tilt pitch -> near_flat tilt = false ->
  cos tilt <> 0 -> ghi <> 0 -> (1 <= npoints)%nat ->
  cos tilt
  + sin tilt
    * solar_projection_tangent solar_zenith solar_azimuth system_azimuth <> 0 ->
  let run :=
    get_irradiance solar_zenith solar_azimuth system_azimuth gcr height tilt
      pitch ghi dhi poa_ground poa_sky_diffuse poa_direct iam npoints
      all_output in
  let d := value run in
  let tan_phi :=
    solar_projection_tangent solar_zenith solar_azimuth system_azimuth in
  div_safe run /\
  exists glo dir dif gnd sky,
    getitem d "poa_global_pv" = Some (Fin glo) /\
    getitem d "poa_direct_pv" = Some (Fin dir) /\
    getitem d "poa_diffuse_pv" = Some (Fin dif) /\
    getitem d "poa_ground_diffuse_pv" = Some (Fin gnd) /\
    getitem d "poa_sky_diffuse_pv" = Some (Fin sky) /\
    glo = dir + dif /\ dif = gnd + sky /\
    dir = poa_direct * iam * (1 - value (shade_line gcr tilt tan_phi)) /\
    length (keys d) = (if all_output then 18 else 5)%nat /\
    firstn 5 (keys d)
    = [ "poa_global_pv"; "poa_direct_pv"; "poa_diffuse_pv";
        "poa_ground_diffuse_pv"; "poa_sky_diffuse_pv" ]%string /\
    (all_output = false -> getitem d "shade_line" = None) /\
    (all_output = true ->
     getitem d "shade_line" = Some (Fin (value (shade_line gcr tilt tan_phi)))).
Proof.
  intros Hv Hnf Hcos Hghi _ Hproj. cbv zeta.
  split; [now apply get_irradiance_div_safe|].
  unfold get_irradiance. rewrite !value_bind.
  cbn [value ret fst].
  do 5 eexists.
  destruct all_output; cbn [app getitem String.eqb Ascii.eqb Bool.eqb
                              keys map fst length firstn];
    (repeat split; try reflexivity; try discriminate).
Qed.

Lemma get_irradiance_mapping_witness :
  let run := get_irradiance 1 3 3 (1 / 2) 1 1 2 500 100 20 80 400 1 100 false
  in
  div_safe run /\
  length (keys (value run)) = 5%nat /\
  getitem (value run) "shade_line" = None.
Proof.
  pose proof (get_irradiance_mapping 1 3 3 (1 / 2) 1 1 2 500 100 20 80 400 1
                100 false reference_valid_config near_flat_1_false
                reference_cos_tilt) as G.
  assert (Hghi : 500 <> 0) by lra.
  assert (Hn : (1 <= 100)%nat) by lia.
  specialize (G Hghi Hn reference_projection). cbv zeta in G.
  destruct G as (Hs & glo & dir & dif & gnd & sky & G).
  destruct G as (_ & _ & _ & _ & _ & _ & _ & _ & Hlen & _ & Hno & _).
  cbv zeta. split; [exact Hs|]. split; [exact Hlen|]. now apply Hno.
Defined.

Lemma get_irradiance_has_poa_global_pv
  (solar_zenith solar_azimuth system_azimuth gcr height tilt pitch ghi dhi
     poa_ground poa_sky_diffuse poa_direct iam : R)
  (npoints : nat) (all_output : bool) :
  exists glo,
    getitem
      (value (get_irradiance solar_zenith solar_azimuth system_azimuth gcr
                height tilt pitch ghi dhi poa_ground poa_sky_diffuse
                poa_direct iam npoints all_output)) "poa_global_pv"
    = Some (Fin glo).
Proof.
  unfold get_irradiance. rewrite !value_bind. cbn [value ret fst].
  eexists. destruct all_output; reflexivity.
Qed.

(* ===================================================================== *)
(** ** What the orchestrator returns *)
(* ===================================================================== *)

(** C10 at InfiniteSheds(system_azimuth=3, gcr=0.5, height=1, tilt=1,
    pitch=2, npoints=100, is_bifacial=False, bifaciality=0.8,
    shade_factor=-0.02, transmission_factor=0).get_irradiance(1, 3, 500,
    100, 20, 80, 400, 1): the stored bifaciality is 0.0 and back_side and
    poa_global_bifacial stay None, as the claim says, and the evaluation of
    the front side divides by nothing zero; but what is returned is the
    string 'poa_global_pv', the first key of the front-side mapping, and
    not the irradiance stored under that key: the surface was built from
    the mapping's keys. *)
Theorem monofacial_returns_key_name :
  let self :=
    InfiniteSheds.__init__ 3 (1 / 2) 1 1 2 100 false (PyFlt (4 / 5))
      (PyFlt (- (1 / 50))) (PyInt 0) in
  let run := value (InfiniteSheds.get_irradiance self 1 3 500 100 20 80 400 1)
  in
  let front_run := get_irradiance 1 3 3 (1 / 2) 1 1 2 500 100 20 80 400 1 100 true
  in
  InfiniteSheds.bifaciality self = PyFlt 0 /\
  InfiniteSheds.back_side (snd run) = None /\
  InfiniteSheds.poa_global_bifacial (snd run) = None /\
  div_safe front_run /\
  (exists front_pv,
      getitem (value front_run) "poa_global_pv" = Some (Fin front_pv)) /\
  hd_error (keys (value front_run)) = Some "poa_global_pv"%string /\
  fst run = Returned (PyStr "poa_global_pv") /\
  (forall a : pynum, fst run <> Returned (PyNum a)).
Proof.
  cbv zeta.
  destruct (monofacial_run 3 (1 / 2) 1 1 2 100 (PyFlt (4 / 5))
              (PyFlt (- (1 / 50))) (PyInt 0) 1 3 500 100 20 80 400 1)
    as (Hb & Hr & _ & Hback & Hbif).
  split; [exact Hb|]. split; [exact Hback|]. split; [exact Hbif|].
  split; [apply reference_front_run_div_safe|].
  split; [apply get_irradiance_has_poa_global_pv|].
  split; [reflexivity|]. split; [exact Hr|].
  intros a. rewrite Hr. discriminate.
Qed.

(** X20: built bifacial with a positive bifaciality, on runs of the front
    and of the back evaluation without a zero divisor, the orchestrator's
    get_irradiance stores both surfaces with the key name 'poa_global_pv'
    in place of the irradiance and never returns a number: when one of
    bifaciality, shade_factor, transmission_factor is a float (the defaults
    0.8 and -0.02 are) the call ends in a TypeError and poa_global_bifacial
    stays None; when all three are ints it returns and stores the key name
    followed by bifaciality*(1+shade_factor)*(1+transmission_factor)
    copies of it. *)
Theorem bifacial_get_irradiance_outcome
  (system_azimuth gcr height tilt pitch : R) (npoints : nat)
  (bifaciality shade_factor transmission_factor : pynum)
  (solar_zenith solar_azimuth ghi dhi poa_ground poa_sky_diffuse poa_direct
     iam : R) :
  let self :=
    InfiniteSheds.__init__ system_azimuth gcr height tilt pitch npoints true
      bifaciality shade_factor transmission_factor in
  let back := _backside tilt system_azimuth in
  let run :=
    value (InfiniteSheds.get_irradiance self solar_zenith solar_azimuth ghi
             dhi poa_ground poa_sky_diffuse poa_direct iam) in
  (1 <= npoints)%nat ->
  div_safe (get_irradiance solar_zenith solar_azimuth system_azimuth gcr
              height tilt pitch ghi dhi poa_ground poa_sky_diffuse poa_direct
              iam npoints true) ->
  div_safe (get_irradiance solar_zenith solar_azimuth (snd back) gcr height
              (fst back) pitch ghi dhi poa_ground poa_sky_diffuse poa_direct
              iam npoints true) ->
  0 < num_value bifaciality ->
  (exists front_s back_s,
      InfiniteSheds.front_side (snd run) = Some front_s /\
      InfiniteSheds.back_side (snd run) = Some back_s /\
      PVSurface.poa_global_pv front_s = PyStr "poa_global_pv" /\
      PVSurface.poa_global_pv back_s = PyStr "poa_global_pv") /\
  (forall a : pynum, fst run <> Returned (PyNum a)) /\
  ((exists x, bifaciality = PyFlt x) \/ (exists x, shade_factor = PyFlt x) \/
   (exists x, transmission_factor = PyFlt x) ->
   fst run = TypeError /\
   InfiniteSheds.poa_global_bifacial (snd run) = None) /\
  (forall n a b : Z,
      bifaciality = PyInt n -> shade_factor = PyInt a ->
      transmission_factor = PyInt b ->
      let copies :=
        repeat_string (repeat_string "poa_global_pv" (Z.to_nat n))
          (Z.to_nat ((1 + a) * (1 + b))) in
      let s := PyStr (String.append "poa_global_pv" copies) in
      fst run = Returned s /\
      InfiniteSheds.poa_global_bifacial (snd run) = Some s).
Proof.
  intros self back run Hn Hfront Hback Hb.
  destruct (bifacial_run_outcome system_azimuth gcr height tilt pitch npoints
              bifaciality shade_factor transmission_factor solar_zenith
              solar_azimuth ghi dhi poa_ground poa_sky_diffuse poa_direct iam
              Hb) as (Hsurf & Hfst & Hpgb).
  fold self in Hsurf, Hfst, Hpgb. fold run in Hsurf, Hfst, Hpgb.
  split; [exact Hsurf|]. split.
  { intros v. rewrite Hfst.
    destruct bifaciality, shade_factor, transmission_factor;
      cbv [poa_global_bifacial_call py_mul py_add mul_num add_num];
      discriminate. }
  split.
  - intros H. rewrite Hpgb, Hfst.
    destruct bifaciality, shade_factor, transmission_factor;
      cbv [poa_global_bifacial_call py_mul py_add mul_num add_num];
      try (split; reflexivity);
      exfalso; destruct H as [[? E]|[[? E]|[? E]]]; discriminate.
  - intros n a b En Ea Eb. cbv zeta. rewrite Hpgb, Hfst, En, Ea, Eb.
    cbv [poa_global_bifacial_call py_mul py_add mul_num add_num].
    split; reflexivity.
Qed.

Lemma bifacial_get_irradiance_outcome_witness :
  let self := InfiniteSheds.__init__ 3 (1 / 2) 1 1 2 100 true (PyFlt (4 / 5))
                (PyFlt (- (1 / 50))) (PyInt 0) in
  let run := value (InfiniteSheds.get_irradiance self 1 3 500 100 20 80 400 1)
  in
  fst run = TypeError /\ InfiniteSheds.poa_global_bifacial (snd run) = None.
Proof.
  assert (Hn : (1 <= 100)%nat) by lia.
  assert (Hb : 0 < num_value (PyFlt (4 / 5))) by (cbn [num_value]; lra).
  pose proof (bifacial_get_irradiance_outcome 3 (1 / 2) 1 1 2 100
                (PyFlt (4 / 5)) (PyFlt (- (1 / 50))) (PyInt 0)
                1 3 500 100 20 80 400 1 Hn
                (reference_front_run_div_safe 20 80 400 1 100 true)
                (reference_back_run_div_safe 20 80 400 1 100 true) Hb) as G.
  destruct G as (_ & _ & G & _).
  apply G. left. now exists (4 / 5).
Defined.

(* ===================================================================== *)
(** ** Front side and back side *)
(* ===================================================================== *)

(** X21: seen from the back side (tilt pi - tilt, azimuth turned by pi) the
    projection tangent changes sign, and the unshaded ground fraction is
    the same as for the front side. *)
Theorem backside_same_ground_illumination
  (solar_zenith solar_azimuth system_azimuth gcr tilt : R) :
  let back := _backside tilt system_azimuth in
  let tan_phi :=
    solar_projection_tangent solar_zenith solar_azimuth system_azimuth in
  let tan_phi_back :=
    solar_projection_tangent solar_zenith solar_azimuth (snd back) in
  tan_phi_back = - tan_phi /\
  unshaded_ground_fraction gcr (fst back) tan_phi_back
  = unshaded_ground_fraction gcr tilt tan_phi.
Proof.
  cbv zeta. rewrite backside_projection_tangent. split; [reflexivity|].
  unfold unshaded_ground_fraction, _backside. cbn [fst].
  rewrite cos_PI_minus, sin_PI_x.
  set (tp := solar_projection_tangent _ _ _).
  replace (- cos tilt + sin tilt * - tp) with (- (cos tilt + sin tilt * tp))
    by ring.
  now rewrite Rabs_Ropp.
Qed.

(** X22: when the sun is in front of the module plane (cos(tilt) +
    sin(tilt)*tan_phi > 0) and gcr > 0, the back side is fully shaded:
    its shade line is 1 and it receives no direct irradiance. *)
Theorem backside_fully_shaded
  (solar_zenith solar_azimuth system_azimuth gcr tilt poa_direct iam : R) :
  0 < gcr ->
  0 < cos tilt
      + sin tilt
        * solar_projection_tangent solar_zenith solar_azimuth system_azimuth ->
  let back := _backside tilt system_azimuth in
  let tan_phi_back :=
    solar_projection_tangent solar_zenith solar_azimuth (snd back) in
  value (shade_line gcr (fst back) tan_phi_back) = 1 /\
  poa_direct_pv poa_direct iam
    (value (shade_line gcr (fst back) tan_phi_back)) = 0.
Proof.
  intros Hg Hp. cbv zeta. rewrite backside_projection_tangent.
  set (tp := solar_projection_tangent _ _ _) in *.
  assert (Hv : value (shade_line gcr (fst (_backside tilt system_azimuth))
                        (- tp)) = 1).
  { rewrite shade_line_value. unfold _backside. cbn [fst].
    rewrite cos_PI_minus, sin_PI_x.
    replace (- cos tilt + sin tilt * - tp) with (- (cos tilt + sin tilt * tp))
      by ring.
    set (proj := cos tilt + sin tilt * tp) in *.
    assert (Hq : 1 / gcr / - proj < 0).
    { replace (1 / gcr / - proj) with (- (1 / (gcr * proj))) by (field; lra).
      apply Ropp_lt_gt_0_contravar. apply Rdiv_lt_0_compat; nra. }
    rewrite Rmin_right by lra. rewrite Rmax_right; lra. }
  split; [exact Hv|]. rewrite Hv. unfold poa_direct_pv. ring.
Qed.

Lemma backside_fully_shaded_witness :
  let back := _backside 0 0 in
  let tan_phi_back := solar_projection_tangent 0 0 (snd back) in
  value (shade_line (1 / 2) (fst back) tan_phi_back) = 1 /\
  poa_direct_pv 900 1 (value (shade_line (1 / 2) (fst back) tan_phi_back)) = 0.
Proof.
  apply (backside_fully_shaded 0 0 0 (1 / 2) 0 900 1).
  - lra.
  - rewrite cos_0, sin_0. lra.
Defined.

(* ===================================================================== *)
(** ** Angles from the module and their tangents *)
(* ===================================================================== *)

(** X23: for gcr in (0,1], a shade line f_x in [0,1] and a tilt outside
    the near-flat range (EPS <= tilt <= pi - EPS), sky_angle and
    ground_angle divide by nothing zero (the second divisor of each is at
    least 1 - cos(EPS) > 4e-7), the angle they return is the arctangent of
    the tangent they return, that tangent is the one of sky_angle_tangent /
    ground_angle_tangent, and the ground angle lies in [0, pi/2). *)
Theorem module_angles_match_tangents (gcr tilt f_x : R) :
  0 < gcr <= 1 -> 0 <= f_x <= 1 -> near_flat tilt = false ->
  let sky := sky_angle gcr tilt f_x in
  let gnd := ground_angle gcr tilt f_x in
  div_safe sky /\ div_safe gnd /\
  divisors sky = [gcr; 1 / gcr - (1 - f_x) * cos tilt] /\
  divisors gnd = [gcr; f_x * cos tilt + 1 / gcr] /\
  1 - cos EPS <= 1 / gcr - (1 - f_x) * cos tilt /\
  1 - cos EPS <= f_x * cos tilt + 1 / gcr /\
  snd (value sky) = value (sky_angle_tangent gcr tilt f_x) /\
  snd (value gnd) = value (ground_angle_tangent gcr tilt f_x) /\
  fst (value sky) = atan (snd (value sky)) /\
  fst (value gnd) = atan (snd (value gnd)) /\
  0 <= fst (value gnd) < PI / 2.
Proof.
  intros Hg Hf Hnf sky gnd.
  pose proof (not_near_flat_open tilt Hnf) as Hopen.
  pose proof (inv_gcr_ge_1 gcr Hg) as Hig.
  pose proof (not_near_flat_cos tilt Hnf) as Hc.
  destruct cos_EPS_margin as [Hm HcE].
  pose proof (sin_pos_open tilt Hopen) as Hs.
  assert (Hms : 1 - cos EPS <= 1 / gcr - (1 - f_x) * cos tilt) by nra.
  assert (Hmg : 1 - cos EPS <= f_x * cos tilt + 1 / gcr) by nra.
  assert (Hx2s : 0 < 1 / gcr - (1 - f_x) * cos tilt) by lra.
  assert (Hx2g : 0 < f_x * cos tilt + 1 / gcr) by lra.
  unfold sky, gnd, sky_angle, ground_angle, sky_angle_tangent,
    ground_angle_tangent, div_safe.
  rewrite !value_bind, !divisors_bind.
  cbn [value divisors ret div fst snd app].
  rewrite !arctan2_pos_x by assumption.
  split; [repeat constructor; lra|].
  split; [repeat constructor; lra|].
  split; [reflexivity|]. split; [reflexivity|].
  split; [exact Hms|]. split; [exact Hmg|].
  repeat split; try reflexivity.
  - rewrite <- atan_0.
    destruct (Req_dec (f_x * sin tilt / (f_x * cos tilt + 1 / gcr)) 0)
      as [E|N]; [rewrite E; lra|].
    left. apply atan_increasing.
    assert (0 <= f_x * sin tilt / (f_x * cos tilt + 1 / gcr)).
    { apply Rmult_le_pos; [nra | left; apply Rinv_0_lt_compat; lra]. }
    lra.
  - match goal with |- atan ?u < _ => pose proof (atan_bound u) end. lra.
Qed.

Lemma module_angles_match_tangents_witness :
  let sky := sky_angle (1 / 2) 1 (1 / 4) in
  let gnd := ground_angle (1 / 2) 1 (1 / 4) in
  div_safe sky /\ div_safe gnd /\
  divisors sky = [1 / 2; 1 / (1 / 2) - (1 - 1 / 4) * cos 1] /\
  divisors gnd = [1 / 2; 1 / 4 * cos 1 + 1 / (1 / 2)] /\
  1 - cos EPS <= 1 / (1 / 2) - (1 - 1 / 4) * cos 1 /\
  1 - cos EPS <= 1 / 4 * cos 1 + 1 / (1 / 2) /\
  snd (value sky) = value (sky_angle_tangent (1 / 2) 1 (1 / 4)) /\
  snd (value gnd) = value (ground_angle_tangent (1 / 2) 1 (1 / 4)) /\
  fst (value sky) = atan (snd (value sky)) /\
  fst (value gnd) = atan (snd (value gnd)) /\
  0 <= fst (value gnd) < PI / 2.
Proof.
  apply (module_angles_match_tangents (1 / 2) 1 (1 / 4));
    [lra | lra | apply near_flat_1_false].
Defined.

(** X24: calc_fgndpv_zsky returns a ground view factor (1 - cos(psi_max))/2
    in [0,1] and the sky-via-ground factor as its product with the
    integrated ground-to-sky view factor; at fx = 0 the ground view factor
    is (1 - cos(tilt))/2, and for gcr > 0 the general branch would give the
    same angle 0 there. *)
Theorem calc_fgndpv_zsky_bottom (fx gcr height tilt pitch : R) (npoints : nat) :
  0 < gcr ->
  let r := value (calc_fgndpv_zsky fx gcr height tilt pitch npoints) in
  0 <= snd r <= 1 /\
  fst r = fst (value (vf_ground_sky gcr height tilt pitch npoints)) * snd r /\
  snd (value (calc_fgndpv_zsky 0 gcr height tilt pitch npoints))
  = (1 - cos tilt) / 2 /\
  fst (value (ground_angle gcr tilt 0)) = 0.
Proof.
  intros Hg r. unfold r, calc_fgndpv_zsky.
  rewrite !value_bind. cbn [value ret fst snd].
  split.
  { match goal with |- _ <= (1 - cos ?a) / 2 <= _ =>
      pose proof (COS_bound a) end. lra. }
  split; [reflexivity|]. split.
  - destruct (Req_dec_T 0 0) as [_|N]; [|contradiction].
    cbn [ret fst]. now rewrite Rminus_0_r.
  - unfold ground_angle. rewrite !value_bind. cbn [value ret div fst snd].
    rewrite arctan2_pos_x.
    + replace (0 * sin tilt / (0 * cos tilt + 1 / gcr)) with 0
        by (unfold Rdiv; ring).
      apply atan_0.
    + assert (0 < 1 / gcr) by (apply Rdiv_lt_0_compat; lra). lra.
Qed.

Lemma calc_fgndpv_zsky_bottom_witness :
  let r := value (calc_fgndpv_zsky (1 / 4) (1 / 2) 1 1 2 100) in
  0 <= snd r <= 1 /\
  fst r = fst (value (vf_ground_sky (1 / 2) 1 1 2 100)) * snd r /\
  snd (value (calc_fgndpv_zsky 0 (1 / 2) 1 1 2 100)) = (1 - cos 1) / 2 /\
  fst (value (ground_angle (1 / 2) 1 0)) = 0.
Proof. apply (calc_fgndpv_zsky_bottom (1 / 4) (1 / 2) 1 1 2 100). lra. Defined.

(* ===================================================================== *)
(** ** The bifacial pipeline *)
(* ===================================================================== *)

Section Pipeline.

Variable aoi : R -> R -> R -> R -> R.
Variable get_total_irradiance :
  R -> R -> R -> R -> R -> R -> R -> R -> R -> string -> Irradiance.t.
Variable ashrae : R -> R -> R.

(** X25: on a valid configuration away from the near-flat range and from
    tilt = pi/2, with ghi non-zero and the sun off the module plane,
    whatever the transposition and incidence-angle collaborators return,
    get_poa_global_bifacial divides by nothing zero on either side, finds
    'poa_global_pv' in both mappings and returns front + back*bifaciality*
    (1+shade_factor)*(1+transmission_factor), where front and back are the
    poa_global_pv of get_irradiance on the front geometry and on the
    mirrored geometry (with the default 100 points); with bifaciality 0 the
    result is the front value alone. *)
Theorem get_poa_global_bifacial_combines
  (solar_zenith solar_azimuth system_azimuth gcr height tilt pitch ghi dhi
     dni dni_extra am_rel iam_b0_front iam_b0_back bifaciality shade_factor
     transmission_factor : R) (method : string) :
  valid_config gcr height tilt pitch -> near_flat tilt = false ->
  cos tilt <> 0 -> ghi <> 0 ->
  cos tilt
  + sin tilt
    * solar_projection_tangent solar_zenith solar_azimuth system_azimuth <> 0 ->
  let back := _backside tilt system_azimuth in
  let irrad_front :=
    get_total_irradiance tilt system_azimuth solar_zenith solar_azimuth
      dni ghi dhi dni_extra am_rel method in
  let irrad_back :=
    get_total_irradiance (fst back) (snd back) solar_zenith solar_azimuth
      dni ghi dhi dni_extra am_rel method in
  let front_map :=
    value (get_irradiance solar_zenith solar_azimuth system_azimuth gcr
             height tilt pitch ghi dhi
             (Irradiance.poa_ground_diffuse irrad_front)
             (Irradiance.poa_sky_diffuse irrad_front)
             (Irradiance.poa_direct irrad_front)
             (ashrae (aoi tilt system_azimuth solar_zenith solar_azimuth)
                iam_b0_front) 100 false) in
  let back_map :=
    value (get_irradiance solar_zenith solar_azimuth (snd back) gcr height
             (fst back) pitch ghi dhi
             (Irradiance.poa_ground_diffuse irrad_back)
             (Irradiance.poa_sky_diffuse irrad_back)
             (Irradiance.poa_direct irrad_back)
             (ashrae (aoi (fst back) (snd back) solar_zenith solar_azimuth)
                iam_b0_back) 100 false) in
  div_safe (get_poa_global_bifacial aoi get_total_irradiance ashrae
              solar_zenith solar_azimuth system_azimuth gcr height tilt pitch
              ghi dhi dni dni_extra am_rel iam_b0_front iam_b0_back
              bifaciality shade_factor transmission_factor method) /\
  exists front_pv back_pv,
    getitem front_map "poa_global_pv" = Some (Fin front_pv) /\
    getitem back_map "poa_global_pv" = Some (Fin back_pv) /\
    value (get_poa_global_bifacial aoi get_total_irradiance ashrae
             solar_zenith solar_azimuth system_azimuth gcr height tilt pitch
             ghi dhi dni dni_extra am_rel iam_b0_front iam_b0_back
             bifaciality shade_factor transmission_factor method)
    = Some (front_pv
            + back_pv * bifaciality
              * ((1 + shade_factor) * (1 + transmission_factor))) /\
    value (get_poa_global_bifacial aoi get_total_irradiance ashrae
             solar_zenith solar_azimuth system_azimuth gcr height tilt pitch
             ghi dhi dni dni_extra am_rel iam_b0_front iam_b0_back
             0 shade_factor transmission_factor method)
    = Some front_pv.
Proof.
  intros Hv Hnf Hcos Hghi Hproj. cbv zeta.
  destruct (get_irradiance_has_poa_global_pv solar_zenith solar_azimuth
              system_azimuth gcr height tilt pitch ghi dhi
              (Irradiance.poa_ground_diffuse
                 (get_total_irradiance tilt system_azimuth solar_zenith
                    solar_azimuth dni ghi dhi dni_extra am_rel method))
              (Irradiance.poa_sky_diffuse
                 (get_total_irradiance tilt system_azimuth solar_zenith
                    solar_azimuth dni ghi dhi dni_extra am_rel method))
              (Irradiance.poa_direct
                 (get_total_irradiance tilt system_azimuth solar_zenith
                    solar_azimuth dni ghi dhi dni_extra am_rel method))
              (ashrae (aoi tilt system_azimuth solar_zenith solar_azimuth)
                 iam_b0_front) 100 false) as (f & Hf).
  set (back := _backside tilt system_azimuth) in *.
  destruct (get_irradiance_has_poa_global_pv solar_zenith solar_azimuth
              (snd back) gcr height (fst back) pitch ghi dhi
              (Irradiance.poa_ground_diffuse
                 (get_total_irradiance (fst back) (snd back) solar_zenith
                    solar_azimuth dni ghi dhi dni_extra am_rel method))
              (Irradiance.poa_sky_diffuse
                 (get_total_irradiance (fst back) (snd back) solar_zenith
                    solar_azimuth dni ghi dhi dni_extra am_rel method))
              (Irradiance.poa_direct
                 (get_total_irradiance (fst back) (snd back) solar_zenith
                    solar_azimuth dni ghi dhi dni_extra am_rel method))
              (ashrae (aoi (fst back) (snd back) solar_zenith solar_azimuth)
                 iam_b0_back) 100 false) as (b & Hb).
  split.
  { unfold get_poa_global_bifacial. cbv zeta. fold back.
    apply div_safe_bind; [now apply get_irradiance_div_safe|]. cbv beta.
    apply div_safe_bind;
      [unfold back; now apply backside_run_div_safe|]. cbv beta.
    rewrite Hf, Hb. apply div_safe_ret. }
  exists f, b. split; [exact Hf|]. split; [exact Hb|].
  unfold get_poa_global_bifacial. rewrite !value_bind. fold back.
  rewrite Hf, Hb. cbn [value ret fst]. unfold poa_global_bifacial.
  split; f_equal; ring.
Qed.

End Pipeline.

Lemma get_poa_global_bifacial_combines_witness :
  let aoi := fun _ _ _ _ : R => 1 / 2 in
  let get_total_irradiance :=
    fun (_ _ _ _ _ _ _ _ _ : R) (_ : string) => Irradiance.mk 20 80 400 in
  let ashrae := fun _ _ : R => 19 / 20 in
  div_safe (get_poa_global_bifacial aoi get_total_irradiance ashrae
              1 3 3 (1 / 2) 1 1 2 500 100 450 1360 (3 / 2) (1 / 20) (1 / 20)
              (4 / 5) (- (1 / 50)) 0 "haydavies") /\
  exists front_pv,
    value (get_poa_global_bifacial aoi get_total_irradiance ashrae
             1 3 3 (1 / 2) 1 1 2 500 100 450 1360 (3 / 2) (1 / 20) (1 / 20)
             0 (- (1 / 50)) 0 "haydavies")
    = Some front_pv.
Proof.
  assert (Hghi : 500 <> 0) by lra.
  pose proof (get_poa_global_bifacial_combines
                (fun _ _ _ _ : R => 1 / 2)
                (fun (_ _ _ _ _ _ _ _ _ : R) (_ : string) =>
                   Irradiance.mk 20 80 400)
                (fun _ _ : R => 19 / 20)
                1 3 3 (1 / 2) 1 1 2 500 100 450 1360 (3 / 2) (1 / 20)
                (1 / 20) (4 / 5) (- (1 / 50)) 0 "haydavies"
                reference_valid_config near_flat_1_false reference_cos_tilt
                Hghi reference_projection) as G.
  cbv zeta in G. destruct G as (Hs & f & b & _ & _ & _ & H0).
  cbv zeta. split; [exact Hs|]. exists f. exact H0.
Defined.
